(** * Shallow embedding of [extract.py] (shipping-label recipient extraction)

    Text is modelled as ASCII: a Python [str] is a [list ascii] ([str]
    below).  Python floats produced by [SequenceMatcher.ratio] are modelled
    as the exact rationals [2*M/T] in [Q]; the comparisons the program makes
    ([score > best_score], [best_score >= 0.75]) are taken on these rationals. *)

From Stdlib Require Import Ascii String List Arith Lia Bool ZArith QArith.
Import ListNotations.

Open Scope list_scope.
Open Scope nat_scope.

(** ** Characters and Python string helpers *)

Abbreviation str := (list ascii).

(** String literals are written as Rocq strings and converted. *)
Definition s2l (s : string) : str := list_ascii_of_string s.

Definition code (c : ascii) : nat := nat_of_ascii c.

Definition is_lower (c : ascii) : bool := (97 <=? code c) && (code c <=? 122).
Definition is_upper (c : ascii) : bool := (65 <=? code c) && (code c <=? 90).
Definition is_digit (c : ascii) : bool := (48 <=? code c) && (code c <=? 57).

(** [str.isspace] / regex [\s] on ASCII: tab, LF, VT, FF, CR, the
    separators 0x1c-0x1f, and space. *)
Definition is_space (c : ascii) : bool :=
  ((9 <=? code c) && (code c <=? 13)) || ((28 <=? code c) && (code c <=? 32)).

(** Regex [\w] on ASCII: letters, digits and underscore. *)
Definition is_word (c : ascii) : bool :=
  is_lower c || is_upper c || is_digit c || (code c =? 95).

(** [str.lower] on one character. *)
Definition lower_char (c : ascii) : ascii :=
  if is_upper c then ascii_of_nat (code c + 32) else c.

(** [str.upper] on one character (used by [str.title]). *)
Definition upper_char (c : ascii) : ascii :=
  if is_lower c then ascii_of_nat (code c - 32) else c.

(** [str.lower] *)
Definition lower (s : str) : str := map lower_char s.

(** [str.strip()] : [lstrip] then [rstrip] of whitespace. *)
Fixpoint lstrip (s : str) : str :=
  match s with
  | [] => []
  | c :: t => if is_space c then lstrip t else s
  end.

Definition rstrip (s : str) : str := rev (lstrip (rev s)).

Definition strip (s : str) : str := rstrip (lstrip s).

(** [str.title()]: a cased character following a cased character is
    lower-cased, any other cased character is upper-cased. *)
Fixpoint title_go (prev_cased : bool) (s : str) : str :=
  match s with
  | [] => []
  | c :: t =>
      let cased := is_lower c || is_upper c in
      (if prev_cased then lower_char c else upper_char c) :: title_go cased t
  end.

Definition title (s : str) : str := title_go false s.

(** ** difflib.SequenceMatcher(None, a, b).ratio() *)

Module Difflib.

Definition at_ (l : str) (i : nat) : ascii := nth i l zero.

(** [b2j]: the ascending indices of [c] in [b].  With [autojunk] (the
    default) and [len(b) >= 200], "popular" elements, occurring more than
    [len(b) // 100 + 1] times, are purged from [b2j].  There is no
    [isjunk], so [bjunk] is empty. *)
Definition positions (b : str) (c : ascii) : list nat :=
  filter (fun j => Ascii.eqb (at_ b j) c) (seq 0 (length b)).

Definition popular (b : str) (c : ascii) : bool :=
  (200 <=? length b) && (length b / 100 + 1 <? length (positions b c)).

Definition b2j (b : str) (c : ascii) : list nat :=
  if popular b c then [] else positions b c.

(** [j2len] dictionaries as association lists. *)
Fixpoint j2len_get (m : list (nat * nat)) (j : nat) : nat :=
  match m with
  | [] => 0
  | (j', k) :: m' => if j' =? j then k else j2len_get m' j
  end.

(** State of the search: [(besti, bestj, bestsize)]. *)
Definition best := (nat * nat * nat)%type.

(** Inner loop [for j in b2j.get(a[i], nothing)]: [continue] below [blo],
    [break] at [bhi].  [j2lenget(j-1, 0)] with [j = 0] looks up the key
    [-1], which is never present. *)
Fixpoint inner (i blo bhi : nat) (j2len : list (nat * nat)) (js : list nat)
    (newj2len : list (nat * nat)) (bs : best) : list (nat * nat) * best :=
  match js with
  | [] => (newj2len, bs)
  | j :: js' =>
      if j <? blo then inner i blo bhi j2len js' newj2len bs
      else if bhi <=? j then (newj2len, bs)
      else
        let k := (match j with 0 => 0 | S j1 => j2len_get j2len j1 end) + 1 in
        let newj2len' := (j, k) :: newj2len in
        let '(besti, bestj, bestsize) := bs in
        let bs' := if bestsize <? k then (i + 1 - k, j + 1 - k, k) else bs in
        inner i blo bhi j2len js' newj2len' bs'
  end.

(** Outer loop [for i in range(alo, ahi)]. *)
Fixpoint outer (a b : str) (blo bhi : nat) (idxs : list nat)
    (j2len : list (nat * nat)) (bs : best) : best :=
  match idxs with
  | [] => bs
  | i :: idxs' =>
      let '(newj2len, bs') := inner i blo bhi j2len (b2j b (at_ a i)) [] bs in
      outer a b blo bhi idxs' newj2len bs'
  end.

(** [while besti > alo and bestj > blo and not isbjunk(b[bestj-1]) and
     a[besti-1] == b[bestj-1]]: extend the match to the left. *)
Fixpoint extend_left (a b : str) (alo blo : nat) (fuel : nat) (bs : best) : best :=
  match fuel with
  | 0 => bs
  | S f =>
      let '(besti, bestj, bestsize) := bs in
      if (alo <? besti) && (blo <? bestj)
         && Ascii.eqb (at_ a (besti - 1)) (at_ b (bestj - 1))
      then extend_left a b alo blo f (besti - 1, bestj - 1, bestsize + 1)
      else bs
  end.

(** [while besti+bestsize < ahi and bestj+bestsize < bhi and ...]:
    extend the match to the right. *)
Fixpoint extend_right (a b : str) (ahi bhi : nat) (fuel : nat) (bs : best) : best :=
  match fuel with
  | 0 => bs
  | S f =>
      let '(besti, bestj, bestsize) := bs in
      if (besti + bestsize <? ahi) && (bestj + bestsize <? bhi)
         && Ascii.eqb (at_ a (besti + bestsize)) (at_ b (bestj + bestsize))
      then extend_right a b ahi bhi f (besti, bestj, bestsize + 1)
      else bs
  end.

(** [find_longest_match(alo, ahi, blo, bhi)].  The two loops that extend
    over junk elements never run: [bjunk] is empty. *)
Definition find_longest_match (a b : str) (alo ahi blo bhi : nat) : best :=
  let bs := outer a b blo bhi (seq alo (ahi - alo)) [] (alo, blo, 0) in
  let bs := extend_left a b alo blo ahi bs in
  extend_right a b ahi bhi ahi bs.

(** Sum of the sizes of [get_matching_blocks()]: the queue of
    [(alo, ahi, blo, bhi)] ranges is processed recursively; the order in
    which the queue is processed does not change the sum.  Each recursive
    range is strictly shorter in [a], so [len(a) + 1] steps suffice. *)
Fixpoint matches (a b : str) (fuel alo ahi blo bhi : nat) : nat :=
  match fuel with
  | 0 => 0
  | S f =>
      let '(i, j, k) := find_longest_match a b alo ahi blo bhi in
      if k =? 0 then 0
      else k + (if (alo <? i) && (blo <? j) then matches a b f alo i blo j else 0)
             + (if (i + k <? ahi) && (j + k <? bhi)
                then matches a b f (i + k) ahi (j + k) bhi else 0)
  end.

(** [_calculate_ratio(matches, len(a) + len(b))]. *)
Definition ratio (a b : str) : Q :=
  let m := matches a b (S (length a)) 0 (length a) 0 (length b) in
  let t := length a + length b in
  if t =? 0 then 1%Q else (Z.of_nat (2 * m) # Pos.of_nat t)%Q.

End Difflib.

(** [similarity(a, b)] *)
Definition similarity (a b : str) : Q := Difflib.ratio (lower a) (lower b).

(** ** Name resolver *)

(** Longest prefix of characters of [[a-z]]. *)
Fixpoint take_lower (s : str) : str :=
  match s with
  | c :: t => if is_lower c then c :: take_lower t else []
  | [] => []
  end.

(** [re.findall(r"[a-z]{3,}", s)]: at each position the greedy
    [[a-z]{3,}] is tried; on success the matched text is emitted and the
    scan resumes after it ([skip] counts the characters still to pass
    over), otherwise the scan moves one character on. *)
Fixpoint findall_az3_go (skip : nat) (s : str) : list str :=
  match s with
  | [] => []
  | c :: t =>
      match skip with
      | S k => findall_az3_go k t
      | 0 =>
          let w := take_lower s in
          if 3 <=? length w then w :: findall_az3_go (length w - 1) t
          else findall_az3_go 0 t
      end
  end.

Definition findall_az3 (s : str) : list str := findall_az3_go 0 s.

(** [[f"{words[i]} {words[i+1]}" for i in range(len(words) - 1)]] *)
Fixpoint bigrams (words : list str) : list str :=
  match words with
  | w1 :: ((w2 :: _) as rest) => (w1 ++ [" "%char] ++ w2) :: bigrams rest
  | _ => []
  end.

Definition KNOWN_RECIPIENTS : list str :=
  map s2l ["Zoey Dong"; "Syta Saephan"; "Ky Dong"; "Tashayanna Mixson"]%string.

(** [score > best_score] *)
Definition Qgtb (x y : Q) : bool := negb (Qle_bool x y).

(** One step of [for real in KNOWN_RECIPIENTS]:
    [if score > best_score: best_score = score; best_name = real]. *)
Definition scan_step (cand : str) (acc : str * Q) (real : str) : str * Q :=
  let '(best_name, best_score) := acc in
  let score := similarity cand real in
  if Qgtb score best_score then (real, score) else (best_name, best_score).

Definition scan_cand (acc : str * Q) (cand : str) : str * Q :=
  fold_left (scan_step cand) KNOWN_RECIPIENTS acc.

Definition match_known_name_from_text (text : str) : str :=
  let words := findall_az3 (lower text) in
  let candidates := bigrams words in
  let '(best_name, best_score) := fold_left scan_cand candidates ([], 0%Q) in
  if Qle_bool (3 # 4) best_score then best_name else [].

(** ** A backtracking regular-expression matcher ([re] module)

    The patterns of the program are sequences of: a single-character class
    repeated between [lo] and [hi] times (greedy or lazy), an alternation of
    literals tried left to right, the assertion [\b], and a greedy optional
    group.  [ends_atom] lists the ways one atom can match, in the order the
    backtracking engine tries them; [match_pieces] returns the first way the
    whole sequence matches, which is the match [re] reports at that position.
    A matcher position carries the previous character, which [\b] reads. *)

Module Re.

Inductive atom : Type :=
  | AClass (p : ascii -> bool) (lo : nat) (hi : option nat) (greedy : bool)
  | AAlt (lits : list str)
  | ABound.

Inductive piece : Type :=
  | PAtom (a : atom)
  | POpt (g : list atom).

Definition state := (option ascii * str)%type.

Fixpoint advance (n : nat) (st : state) : state :=
  match n, st with
  | S n', (_, c :: t) => advance n' (Some c, t)
  | _, _ => st
  end.

Fixpoint count_class (p : ascii -> bool) (s : str) : nat :=
  match s with
  | c :: t => if p c then S (count_class p t) else 0
  | [] => 0
  end.

Fixpoint prefixb (l s : str) : bool :=
  match l, s with
  | [], _ => true
  | c :: l', d :: s' => Ascii.eqb c d && prefixb l' s'
  | _ :: _, [] => false
  end.

Definition word_before (prev : option ascii) : bool :=
  match prev with Some c => is_word c | None => false end.

Definition word_after (s : str) : bool :=
  match s with c :: _ => is_word c | [] => false end.

Definition ends_atom (a : atom) (st : state) : list state :=
  let '(prev, s) := st in
  match a with
  | AClass p lo hi greedy =>
      let n := count_class p s in
      let n := match hi with Some h => Nat.min h n | None => n end in
      if n <? lo then []
      else
        let counts := seq lo (S n - lo) in
        map (fun k => advance k st) (if greedy then rev counts else counts)
  | AAlt lits =>
      flat_map (fun l => if prefixb l s then [advance (length l) st] else []) lits
  | ABound =>
      if xorb (word_before prev) (word_after s) then [st] else []
  end.

Fixpoint ends_atoms (g : list atom) (st : state) : list state :=
  match g with
  | [] => [st]
  | a :: g' => flat_map (ends_atoms g') (ends_atom a st)
  end.

Fixpoint first_some {A B : Type} (f : A -> option B) (l : list A) : option B :=
  match l with
  | [] => None
  | x :: l' => match f x with Some y => Some y | None => first_some f l' end
  end.

Fixpoint match_pieces (ps : list piece) (st : state) : option state :=
  match ps with
  | [] => Some st
  | PAtom a :: ps' => first_some (match_pieces ps') (ends_atom a st)
  | POpt g :: ps' => first_some (match_pieces ps') (ends_atoms g st ++ [st])
  end.

(** Length of the match of [ps] at position [(prev, s)], if any. *)
Definition match_len (ps : list piece) (prev : option ascii) (s : str) : option nat :=
  match match_pieces ps (prev, s) with
  | Some (_, rest) => Some (length s - length rest)
  | None => None
  end.

(** [re.search(ps, s)]: the first position at which [ps] matches; the
    matched text. *)
Fixpoint search_go (ps : list piece) (prev : option ascii) (s : str) : option str :=
  match match_len ps prev s with
  | Some n => Some (firstn n s)
  | None =>
      match s with
      | [] => None
      | c :: t => search_go ps (Some c) t
      end
  end.

Definition search (ps : list piece) (s : str) : option str := search_go ps None s.

(** [re.sub(ps, repl, s)]: matches are replaced left to right and the scan
    resumes after each match ([skip] counts the characters of the match
    still to pass over).  The patterns used never match the empty string;
    an empty match would leave the text unchanged for an empty [repl]. *)
Fixpoint sub_go (ps : list piece) (repl : str) (skip : nat)
    (prev : option ascii) (s : str) : str :=
  match s with
  | [] => []
  | c :: t =>
      match skip with
      | S k => sub_go ps repl k (Some c) t
      | 0 =>
          match match_len ps prev s with
          | Some (S n) => repl ++ sub_go ps repl n (Some c) t
          | _ => c :: sub_go ps repl 0 (Some c) t
          end
      end
  end.

Definition sub (ps : list piece) (repl : str) (s : str) : str := sub_go ps repl 0 None s.

Definition lit (s : string) : atom := AAlt [s2l s].
Definition any_char (c : ascii) : bool := true.

End Re.

Import Re.

(** ** OCR cleaning *)

(** [r"\b\d+(\.\d+)?\s?lbs\b"] *)
Definition WEIGHT_RE : list piece :=
  [PAtom ABound; PAtom (AClass is_digit 1 None true);
   POpt [lit "."; AClass is_digit 1 None true];
   PAtom (AClass is_space 0 (Some 1) true); PAtom (lit "lbs"); PAtom ABound].

(** [r"\b\d{10,}\b"] *)
Definition LONGNUM_RE : list piece :=
  [PAtom ABound; PAtom (AClass is_digit 10 None true); PAtom ABound].

(** [r"\b(united states|usa)\b"] *)
Definition COUNTRY_RE : list piece :=
  [PAtom ABound; PAtom (AAlt (map s2l ["united states"; "usa"]%string)); PAtom ABound].

Definition STOPWORDS : list str :=
  map s2l ["priority"; "ground"; "tracking"; "fedex"; "ups"; "usps";
           "billing"; "sender"; "postage"]%string.

(** [r"\b(priority|ground|tracking|fedex|ups|usps|billing|sender|postage)\b"] *)
Definition STOPWORD_RE : list piece :=
  [PAtom ABound; PAtom (AAlt STOPWORDS); PAtom ABound].

(** [r"\s+"] *)
Definition SPACES_RE : list piece := [PAtom (AClass is_space 1 None true)].

Definition clean_ocr (text : str) : str :=
  let text := lower text in
  let text := sub WEIGHT_RE [] text in
  let text := sub LONGNUM_RE [] text in
  let text := sub COUNTRY_RE [] text in
  let text := sub STOPWORD_RE [] text in
  strip (sub SPACES_RE [" "%char] text).

(** ** Address fallback *)

Definition is_lower_digit_space (c : ascii) : bool := is_lower c || is_digit c || is_space c.
Definition is_lower_space (c : ascii) : bool := is_lower c || is_space c.

(** [\d{3,6}\s+[a-z0-9\s]+(?:dr|...|avenue)\s+[a-z\s]+?\s+(?:ca|nd|tx|ga)],
    the part common to both patterns. *)
Definition ADDR_HEAD : list piece :=
  [PAtom (AClass is_digit 3 (Some 6) true);
   PAtom (AClass is_space 1 None true);
   PAtom (AClass is_lower_digit_space 1 None true);
   PAtom (AAlt (map s2l ["dr"; "drive"; "st"; "street"; "blvd"; "boulevard";
                         "lane"; "ln"; "rd"; "road"; "parkway"; "pkwy";
                         "ave"; "avenue"]%string));
   PAtom (AClass is_space 1 None true);
   PAtom (AClass is_lower_space 1 None false);
   PAtom (AClass is_space 1 None true);
   PAtom (AAlt (map s2l ["ca"; "nd"; "tx"; "ga"]%string))].

(** The first pattern adds [\s+\d{5}(?:-\d{4})?]. *)
Definition ADDR_ZIP_RE : list piece :=
  ADDR_HEAD ++ [PAtom (AClass is_space 1 None true);
                PAtom (AClass is_digit 5 (Some 5) true);
                POpt [lit "-"; AClass is_digit 4 (Some 4) true]].

Definition ADDR_NOZIP_RE : list piece := ADDR_HEAD.

Definition address_patterns : list (list piece) := [ADDR_ZIP_RE; ADDR_NOZIP_RE].

Definition fallback_address (text : str) : str :=
  let text := lower text in
  match first_some (fun pat => search pat text) address_patterns with
  | Some m => title m
  | None => []
  end.

(** ** JSON values and [json.loads] *)

#[local] Set Warnings "-register-all".
Inductive json : Type :=
  | JNull
  | JBool (b : bool)
  | JNum (lexeme : str)
  | JStr (s : str)
  | JArr (l : list json)
  | JObj (kv : list (str * json)).

Module Json.

(** JSON whitespace [[ \t\n\r]*] *)
Fixpoint ws (s : str) : str :=
  match s with
  | c :: t => if (code c =? 32) || (code c =? 9) || (code c =? 10) || (code c =? 13)
              then ws t else s
  | [] => []
  end.

Definition hexval (c : ascii) : option nat :=
  if is_digit c then Some (code c - 48)
  else if (97 <=? code c) && (code c <=? 102) then Some (code c - 87)
  else if (65 <=? code c) && (code c <=? 70) then Some (code c - 55)
  else None.

(** The body of a string literal after the opening quote: its value and the
    text after the closing quote.  Control characters are refused (strict
    mode).  [\uXXXX] escapes are decoded within ASCII; others lie outside
    this ASCII model and are refused. *)
Fixpoint pstring (s : str) : option (str * str) :=
  match s with
  | [] => None
  | c :: t =>
      if code c =? 34 then Some ([], t)
      else if code c <? 32 then None
      else if code c =? 92 then
        match t with
        | e :: t' =>
            let simple (d : ascii) :=
              match pstring t' with Some (v, r) => Some (d :: v, r) | None => None end in
            match code e with
            | 34 => simple e | 92 => simple e | 47 => simple e
            | 98 => simple (ascii_of_nat 8) | 102 => simple (ascii_of_nat 12)
            | 110 => simple (ascii_of_nat 10) | 114 => simple (ascii_of_nat 13)
            | 116 => simple (ascii_of_nat 9)
            | 117 =>
                match t' with
                | h1 :: h2 :: h3 :: h4 :: t'' =>
                    match hexval h1, hexval h2, hexval h3, hexval h4 with
                    | Some v1, Some v2, Some v3, Some v4 =>
                        let v := ((v1 * 16 + v2) * 16 + v3) * 16 + v4 in
                        if v <? 128 then
                          match pstring t'' with
                          | Some (w, r) => Some (ascii_of_nat v :: w, r)
                          | None => None
                          end
                        else None
                    | _, _, _, _ => None
                    end
                | _ => None
                end
            | _ => None
            end
        | [] => None
        end
      else match pstring t with Some (v, r) => Some (c :: v, r) | None => None end
  end.

Fixpoint take_digits (s : str) : str * str :=
  match s with
  | c :: t => if is_digit c then let '(d, r) := take_digits t in (c :: d, r) else ([], s)
  | [] => ([], [])
  end.

(** [NUMBER_RE] of the [json] module, matched at the start of [s]: an
    optional minus, [0] or a non-zero digit followed by digits, an optional
    fraction [\.\d+], an optional exponent [[eE][-+]?\d+]; the lexeme and
    the rest. *)
Definition pnumber (s : str) : option (str * str) :=
  let '(sign, s1) := match s with c :: t => if code c =? 45 then ([c], t) else ([], s) | [] => ([], s) end in
  let intpart :=
    match s1 with
    | c :: t => if code c =? 48 then Some ([c], t)
                else if is_digit c then let '(d, r) := take_digits t in Some (c :: d, r)
                else None
    | [] => None
    end in
  match intpart with
  | None => None
  | Some (ip, s2) =>
      let '(frac, s3) :=
        match s2 with
        | c :: t => if code c =? 46 then
                      match take_digits t with
                      | ((_ :: _) as d, r) => (c :: d, r)
                      | _ => ([], s2)
                      end
                    else ([], s2)
        | [] => ([], s2)
        end in
      let '(ex, s4) :=
        match s3 with
        | c :: t =>
            if (code c =? 101) || (code c =? 69) then
              let '(sg, t1) := match t with
                               | d :: t' => if (code d =? 43) || (code d =? 45) then ([d], t') else ([], t)
                               | [] => ([], t) end in
              match take_digits t1 with
              | ((_ :: _) as d, r) => (c :: sg ++ d, r)
              | _ => ([], s3)
              end
            else ([], s3)
        | [] => ([], s3)
        end in
      Some (sign ++ ip ++ frac ++ ex, s4)
  end.

(** [scan_once], [JSONObject] and [JSONArray] of the [json] module, with
    fuel bounding the nesting depth. *)
Fixpoint pvalue (fuel : nat) (s : str) : option (json * str) :=
  match fuel with
  | 0 => None
  | S f =>
      match s with
      | c :: t =>
          if code c =? 34 then
            match pstring t with Some (v, r) => Some (JStr v, r) | None => None end
          else if code c =? 123 then
            match ws t with
            | d :: t' => if code d =? 125 then Some (JObj [], t')
                         else pmembers f (ws t) []
            | [] => None
            end
          else if code c =? 91 then
            match ws t with
            | d :: t' => if code d =? 93 then Some (JArr [], t')
                         else pelems f (ws t) []
            | [] => None
            end
          else if prefixb (s2l "null") s then Some (JNull, skipn 4 s)
          else if prefixb (s2l "true") s then Some (JBool true, skipn 4 s)
          else if prefixb (s2l "false") s then Some (JBool false, skipn 5 s)
          else match pnumber s with
               | Some (lx, r) => Some (JNum lx, r)
               | None =>
                   if prefixb (s2l "NaN") s then Some (JNum (s2l "NaN"), skipn 3 s)
                   else if prefixb (s2l "Infinity") s then Some (JNum (s2l "Infinity"), skipn 8 s)
                   else if prefixb (s2l "-Infinity") s then Some (JNum (s2l "-Infinity"), skipn 9 s)
                   else None
               end
      | [] => None
      end
  end
with pmembers (fuel : nat) (s : str) (acc : list (str * json)) : option (json * str) :=
  match fuel with
  | 0 => None
  | S f =>
      match s with
      | c :: t =>
          if code c =? 34 then
            match pstring t with
            | Some (k, r) =>
                match ws r with
                | d :: r1 =>
                    if code d =? 58 then
                      match pvalue f (ws r1) with
                      | Some (v, r2) =>
                          match ws r2 with
                          | e :: r3 =>
                              if code e =? 44 then pmembers f (ws r3) (acc ++ [(k, v)])
                              else if code e =? 125 then Some (JObj (acc ++ [(k, v)]), r3)
                              else None
                          | [] => None
                          end
                      | None => None
                      end
                    else None
                | [] => None
                end
            | None => None
            end
          else None
      | [] => None
      end
  end
with pelems (fuel : nat) (s : str) (acc : list json) : option (json * str) :=
  match fuel with
  | 0 => None
  | S f =>
      match pvalue f s with
      | Some (v, r) =>
          match ws r with
          | e :: r1 =>
              if code e =? 44 then pelems f (ws r1) (acc ++ [v])
              else if code e =? 93 then Some (JArr (acc ++ [v]), r1)
              else None
          | [] => None
          end
      | None => None
      end
  end.

(** [json.loads(s)]: [None] stands for the [JSONDecodeError] it raises. *)
Definition loads (s : str) : option json :=
  match pvalue (S (length s)) (ws s) with
  | Some (v, r) => match ws r with [] => Some v | _ => None end
  | None => None
  end.

End Json.

(** ** JSON extraction from the model response *)

(** [r"\{.*\}"] with [re.DOTALL] *)
Definition BRACE_RE : list piece :=
  [PAtom (lit "{"); PAtom (AClass any_char 0 None true); PAtom (lit "}")].

(** The error cases of the pipeline: the failures of the backend call and
    the [AttributeError] of calling [.get]/[.strip] on a non-dict/non-str. *)
Inductive error : Type :=
  | BackendUnavailable
  | Timeout
  | AttributeError.

Inductive result (A : Type) : Type :=
  | Ok (a : A)
  | Err (e : error).
Arguments Ok {A} a.
Arguments Err {A} e.

Definition bind {A B : Type} (r : result A) (k : A -> result B) : result B :=
  match r with Ok a => k a | Err e => Err e end.

Notation "x <- r ;; k" := (bind r (fun x => k)) (at level 61, r at next level, right associativity).

Record FinalRecord : Type := {
  recipient_name : str;
  recipient_address : str
}.

Section Pipeline.

(** [json.loads]: [None] when it raises. *)
Variable json_loads : str -> option json.

(** [call_ollama(text)]: the backend's [response] text, or the backend
    failure it raises. *)
Variable call_ollama : str -> result str.

(** [extract_json(resp)]; the bare [except] turns every failure of
    [json.loads] into [{}]. *)
Definition extract_json (resp : str) : json :=
  match search BRACE_RE resp with
  | None => JObj []
  | Some span =>
      match json_loads span with
      | Some v => v
      | None => JObj []
      end
  end.

(** [dict.get(key, default)]: the last binding of a key wins. *)
Definition dict_get (kv : list (str * json)) (key : str) : option json :=
  match find (fun p => if list_eq_dec ascii_dec (fst p) key then true else false) (rev kv) with
  | Some (_, v) => Some v
  | None => None
  end.

(** [data.get(key, '').strip()] *)
Definition get_stripped (data : json) (key : str) : result str :=
  match data with
  | JObj kv =>
      match dict_get kv key with
      | None => Ok (strip [])
      | Some (JStr s) => Ok (strip s)
      | Some _ => Err AttributeError
      end
  | _ => Err AttributeError
  end.

Definition nonempty (s : str) : bool := match s with [] => false | _ => true end.

Definition extract_final (ocr_text : str) : result FinalRecord :=
  let cleaned := clean_ocr ocr_text in
  resp <- call_ollama cleaned ;;
  let data := extract_json resp in
  raw_name <- get_stripped data (s2l "recipient_name") ;;
  raw_addr <- get_stripped data (s2l "recipient_address") ;;
  let name := if nonempty raw_name then match_known_name_from_text raw_name else [] in
  let name := if nonempty name then name else match_known_name_from_text ocr_text in
  let address := if nonempty raw_addr then raw_addr else fallback_address ocr_text in
  Ok {| recipient_name := name; recipient_address := address |}.

End Pipeline.

(** [raw_texts]: the recorded OCR inputs of the script. *)
Definition raw_texts : list str := map s2l [
  "lex2 2.8 lbs, 2821 carradale dr, 95661-4047 roseville, ca, fat1, united states, zoey dong, dsm1, 0503 dsm1, tba132376390000, cycle 1, a sm1";
  "batavia stkllt, special instructiu, metr 4684 3913 8542, g, ca 8206s, 95661, o, 230, 2, paper, fedex, mps 46843913 8553, frun, 2164 n, 9622 00 19 0 000 000 0000 0 00 4684 3913 8553, 8150 sierra college blvd ste, syta saephan, notifil, roseville ca 95661, ground, of 2, 214 787-430o, us, bill sender";
  "ship to, ups ground, 41 lbs, tracking : 1z v4w 195 03 6500 6276, manautr, 2821 carradale dr, ree v0084700946203420100402, etxk-0806:, 0f 1, 1, ky dong, 95661-4047, ref, wi 34.18, 17, nippina, 310 99-085, ca 956 0-01, billing pip, roseville ca, cwtainity";
  "tashayanna mixson, postage fes paid, north gate apartments, notifii llc, 621 42nd st e, williston nd 58801-6810"]%string.

Definition record1 : str := nth 0 raw_texts [].

(** ** Reference definitions following the spec's wording

    These are stated from the spec's words, to be compared with the
    definitions embedding the source. *)

(** The words of the Name Resolver: maximal runs of lowercase letters of
    length at least 3. *)
Definition flush (cur : str) : list str := if 3 <=? length cur then [cur] else [].

Fixpoint runs_from (cur : str) (s : str) : list str :=
  match s with
  | [] => flush cur
  | c :: t => if is_lower c then runs_from (cur ++ [c]) t else flush cur ++ runs_from [] t
  end.

Definition runs (s : str) : list str := runs_from [] s.

(** Every (bigram, known name) pair, bigrams left to right, then whitelist
    order. *)
Definition name_pairs (text : str) : list (str * str) :=
  flat_map (fun cand => map (fun real => (cand, real)) KNOWN_RECIPIENTS)
           (bigrams (runs (lower text))).

Definition pair_score (p : str * str) : Q := similarity (fst p) (snd p).

(** Maximum of [m] and the scores [l]. *)
Fixpoint qmax_from (m : Q) (l : list Q) : Q :=
  match l with
  | [] => m
  | x :: l' => qmax_from (if Qle_bool m x then x else m) l'
  end.

(** The Name Resolver as the spec describes it: the known name of the first
    pair whose score is the maximum, if that maximum is at least 0.75. *)
Definition resolve_spec (text : str) : str :=
  match name_pairs text with
  | [] => []
  | p0 :: ps =>
      let m := qmax_from (pair_score p0) (map pair_score ps) in
      if Qle_bool (3 # 4) m then
        match find (fun p => Qeq_bool (pair_score p) m) (p0 :: ps) with
        | Some p => snd p
        | None => []
        end
      else []
  end.

(** The candidate's field [key] as a string: empty when missing, [None]
    when the value is not a string (or [data] is not an object). *)
Definition field_str (data : json) (key : str) : option str :=
  match data with
  | JObj kv =>
      match dict_get kv key with
      | None => Some []
      | Some (JStr s) => Some s
      | Some _ => None
      end
  | _ => None
  end.

(** Index of the first occurrence of [c]. *)
Fixpoint index_of (c : ascii) (s : str) : option nat :=
  match s with
  | [] => None
  | d :: t => if Ascii.eqb d c then Some 0 else option_map S (index_of c t)
  end.

(** Index of the last occurrence of [c]. *)
Fixpoint last_index_of (c : ascii) (s : str) : option nat :=
  match s with
  | [] => None
  | d :: t =>
      match last_index_of c t with
      | Some j => Some (S j)
      | None => if Ascii.eqb d c then Some 0 else None
      end
  end.

(** The span from the first [{] to the last [}], if the last [}] comes after
    the first [{]. *)
Definition brace_span (s : str) : option str :=
  match index_of "{"%char s, last_index_of "}"%char s with
  | Some i, Some j => if i <? j then Some (firstn (j - i + 1) (skipn i s)) else None
  | _, _ => None
  end.

(** Building model responses: a JSON string literal. *)
Definition quoted (s : string) : str := ascii_of_nat 34 :: s2l s ++ [ascii_of_nat 34].

(** A model response whose name is [null]: [{"recipient_name": null}]. *)
Definition resp_null : str :=
  s2l "{" ++ quoted "recipient_name" ++ s2l ": null}".

(** A model response whose address has surrounding spaces:
    the name is the empty string and the address is [" 12 Main St "]. *)
Definition resp_spaced_addr : str :=
  s2l "{" ++ quoted "recipient_name" ++ s2l ": " ++ quoted EmptyString ++ s2l ", " ++
  quoted "recipient_address" ++ s2l ": " ++ quoted " 12 Main St " ++ s2l "}".

(** Collapsing every whitespace run to one space, as the spec says;
    [in_run] tells whether the previous character was whitespace. *)
Fixpoint collapse_go (in_run : bool) (s : str) : str :=
  match s with
  | [] => []
  | c :: t =>
      if is_space c then
        if in_run then collapse_go true t else " "%char :: collapse_go true t
      else c :: collapse_go false t
  end.

(** Every whitespace character is a space, and none follows whitespace
    (nor starts the text when [in_run]). *)
Fixpoint single_spaced (in_run : bool) (s : str) : bool :=
  match s with
  | [] => true
  | c :: t =>
      if is_space c then negb in_run && Ascii.eqb c " "%char && single_spaced true t
      else single_spaced false t
  end.

(** The words of a text, as [\b] delimits them: maximal runs of [\w]
    characters. *)
Definition wflush (cur : str) : list str := match cur with [] => [] | _ => [cur] end.

Fixpoint words_from (cur : str) (s : str) : list str :=
  match s with
  | [] => wflush cur
  | c :: t => if is_word c then words_from (cur ++ [c]) t else wflush cur ++ words_from [] t
  end.

Definition words (s : str) : list str := words_from [] s.

(** The word at the front of a text. *)
Fixpoint word_prefix (s : str) : str :=
  match s with
  | c :: t => if is_word c then c :: word_prefix t else []
  | [] => []
  end.

Definition str_eqb (a b : str) : bool := if list_eq_dec ascii_dec a b then true else false.

(** Words the normaliser is meant to drop: a stopword, "usa", or a run of
    at least ten digits. *)
Definition stop_word (w : str) : bool := existsb (str_eqb w) STOPWORDS.
Definition usa_word (w : str) : bool := str_eqb w (s2l "usa").
Definition long_number (w : str) : bool := forallb is_digit w && (10 <=? length w).
Definition removed_word (w : str) : bool := stop_word w || usa_word w || long_number w.

(** ** Characters a pattern can consume *)

(** Every character an atom can consume satisfies [P]. *)
Definition consumes (P : ascii -> bool) (a : atom) : Prop :=
  match a with
  | AClass p _ _ _ => forall c, p c = true -> P c = true
  | AAlt lits => forallb (forallb P) lits = true
  | ABound => True
  end.

Definition piece_consumes (P : ascii -> bool) (pc : piece) : Prop :=
  match pc with
  | PAtom a => consumes P a
  | POpt g => Forall (consumes P) g
  end.

(** The characters of the address patterns: lowercase letters, digits,
    whitespace and the hyphen of the ZIP+4 suffix. *)
Definition addr_char (c : ascii) : bool :=
  is_lower c || is_digit c || is_space c || Ascii.eqb c "-"%char.

(** A model response whose name is a whitelisted name in capitals:
    [{"recipient_name": " ZOEY DONG "}]. *)
Definition resp_upper_name : str :=
  s2l "{" ++ quoted "recipient_name" ++ s2l ": " ++ quoted " ZOEY DONG " ++ s2l "}".

(** * Properties *)

(** ** [SequenceMatcher]: matched blocks stay inside their ranges *)

Module DifflibFacts.
Import Difflib.

Section Ranges.
Variables (a b : str) (alo ahi blo bhi : nat).

(** A [(besti, bestj, bestsize)] block inside the current ranges. *)
Definition in_range (bs : best) : Prop :=
  let '(i, j, k) := bs in alo <= i /\ i + k <= ahi /\ blo <= j /\ j + k <= bhi.

(** The [j2len] entries while index [i] of [a] is scanned: a run ending at
    [j] in [b] starts at or after [blo] and at or after [alo] in [a]. *)
Definition j2len_ok (m : list (nat * nat)) (i : nat) : Prop :=
  forall j, j2len_get m j <= j + 1 - blo /\ j2len_get m j <= i - alo.

Lemma j2len_ok_nil : forall i, j2len_ok [] i.
Proof. intros i j; simpl; lia. Qed.

Lemma inner_ok : forall i js j2len newj2len bs,
  alo <= i -> i < ahi ->
  j2len_ok j2len i -> j2len_ok newj2len (S i) -> in_range bs ->
  let '(m, bs') := inner i blo bhi j2len js newj2len bs in
  j2len_ok m (S i) /\ in_range bs'.
Proof.
  intros i js; induction js as [|j js IH]; intros j2len newj2len bs Hlo Hhi Hold Hnew Hbs.
  - simpl; auto.
  - simpl. destruct (Nat.ltb_spec j blo).
    + apply IH; auto.
    + destruct (Nat.leb_spec bhi j); [split; auto|].
      destruct bs as [[bi bj] bk].
      set (k := (match j with 0 => 0 | S j1 => j2len_get j2len j1 end) + 1).
      assert (Hk1 : k <= j + 1 - blo /\ k <= S i - alo).
      { subst k; destruct j as [|j1].
        - split; lia.
        - destruct (Hold j1); lia. }
      apply IH; auto.
      * intros j'; cbn [j2len_get]. destruct (Nat.eqb_spec j j'); [subst; lia|].
        apply Hnew.
      * destruct (Nat.ltb_spec bk k); cbv beta iota delta [in_range] in *; lia.
Qed.

Lemma outer_ok : forall idxs i0 j2len bs,
  idxs = seq i0 (length idxs) -> alo <= i0 -> i0 + length idxs <= ahi ->
  j2len_ok j2len i0 -> in_range bs ->
  in_range (outer a b blo bhi idxs j2len bs).
Proof.
  induction idxs as [|i idxs IH]; intros i0 j2len bs Hseq Hlo Hhi Hm Hbs; simpl; auto.
  simpl in Hseq; injection Hseq as -> Hseq.
  assert (H1 : alo <= i0) by lia.
  assert (H2 : i0 < ahi) by (simpl in Hhi; lia).
  pose proof (inner_ok i0 (b2j b (at_ a i0)) j2len [] bs H1 H2 Hm (j2len_ok_nil _) Hbs) as H.
  destruct (inner i0 blo bhi j2len (b2j b (at_ a i0)) [] bs) as [m bs'].
  destruct H as [Hm' Hbs'].
  apply (IH (S i0)); auto; simpl in *; lia.
Qed.

Lemma extend_left_ok : forall fuel bs, in_range bs -> in_range (extend_left a b alo blo fuel bs).
Proof.
  induction fuel as [|f IH]; intros [[i j] k] H; simpl; auto.
  destruct ((alo <? i) && (blo <? j) && Ascii.eqb (at_ a (i - 1)) (at_ b (j - 1))) eqn:E; auto.
  apply IH. repeat rewrite andb_true_iff in E. destruct E as [[E1 E2] _].
  apply Nat.ltb_lt in E1, E2. simpl in *; lia.
Qed.

Lemma extend_right_ok : forall fuel bs, in_range bs -> in_range (extend_right a b ahi bhi fuel bs).
Proof.
  induction fuel as [|f IH]; intros [[i j] k] H; simpl; auto.
  destruct ((i + k <? ahi) && (j + k <? bhi) && Ascii.eqb (at_ a (i + k)) (at_ b (j + k))) eqn:E; auto.
  apply IH. repeat rewrite andb_true_iff in E. destruct E as [[E1 E2] _].
  apply Nat.ltb_lt in E1, E2. simpl in *; lia.
Qed.

Lemma find_longest_match_in_range :
  alo <= ahi -> blo <= bhi -> in_range (find_longest_match a b alo ahi blo bhi).
Proof.
  intros H1 H2. unfold find_longest_match.
  apply extend_right_ok, extend_left_ok, (outer_ok _ alo).
  - rewrite length_seq; reflexivity.
  - lia.
  - rewrite length_seq; lia.
  - apply j2len_ok_nil.
  - simpl; lia.
Qed.

End Ranges.

(** The matched characters never exceed either range. *)
Lemma matches_bound : forall a b fuel alo ahi blo bhi,
  alo <= ahi -> blo <= bhi ->
  matches a b fuel alo ahi blo bhi <= ahi - alo /\
  matches a b fuel alo ahi blo bhi <= bhi - blo.
Proof.
  intros a b fuel; induction fuel as [|f IH]; intros alo ahi blo bhi H1 H2; simpl; [lia|].
  pose proof (find_longest_match_in_range a b alo ahi blo bhi H1 H2) as Hr.
  destruct (find_longest_match a b alo ahi blo bhi) as [[i j] k]; simpl in Hr.
  destruct (Nat.eqb_spec k 0); [lia|].
  destruct (Nat.ltb_spec alo i); destruct (Nat.ltb_spec blo j);
  destruct (Nat.ltb_spec (i + k) ahi); destruct (Nat.ltb_spec (j + k) bhi); cbn [andb];
  repeat match goal with
  | |- context [matches a b f ?x ?y ?z ?w] =>
      let Hm := fresh "Hm" in
      assert (Hm : x <= y /\ z <= w) by lia;
      destruct (IH x y z w (proj1 Hm) (proj2 Hm));
      generalize dependent (matches a b f x y z w); intros
  end; lia.
Qed.

End DifflibFacts.

Lemma ratio_bounds : forall a b, (0 <= Difflib.ratio a b <= 1)%Q.
Proof.
  intros a b. unfold Difflib.ratio.
  destruct (Nat.eqb_spec (length a + length b) 0) as [E|E].
  - split; discriminate.
  - pose proof (DifflibFacts.matches_bound a b (S (length a)) 0 (length a) 0 (length b)
                  ltac:(lia) ltac:(lia)) as [H1 H2].
    set (m := Difflib.matches a b (S (length a)) 0 (length a) 0 (length b)) in *.
    assert (Ht : Zpos (Pos.of_nat (length a + length b)) = Z.of_nat (length a + length b))
      by (rewrite <- positive_nat_Z, Nat2Pos.id; lia).
    unfold Qle; cbn [Qnum Qden]. rewrite Ht. split; lia.
Qed.

Lemma lower_upper_char : forall c, lower_char (upper_char c) = lower_char c.
Proof. intros [[] [] [] [] [] [] [] []]; reflexivity. Qed.

Lemma lower_lower_char : forall c, lower_char (lower_char c) = lower_char c.
Proof. intros [[] [] [] [] [] [] [] []]; reflexivity. Qed.

Lemma lower_lower : forall s, lower (lower s) = lower s.
Proof. intros s; unfold lower; rewrite map_map; apply map_ext, lower_lower_char. Qed.

Lemma similarity_bounds : forall a b, (0 <= similarity a b <= 1)%Q.
Proof. intros; apply ratio_bounds. Qed.

(** ** The tokenizer: [re.findall(r"[a-z]{3,}")] yields the maximal runs *)

Lemma take_lower_split : forall s, exists r,
  s = take_lower s ++ r /\ Forall (fun c => is_lower c = true) (take_lower s) /\
  (r = [] \/ exists c t, r = c :: t /\ is_lower c = false).
Proof.
  induction s as [|c t IH]; simpl.
  - exists []; auto.
  - destruct (is_lower c) eqn:E.
    + destruct IH as [r [H1 [H2 H3]]]. exists r; simpl; rewrite <- H1; auto.
    + exists (c :: t); simpl; split; [auto | split; [constructor | right; eauto]].
Qed.

Lemma runs_from_letters : forall w cur r, Forall (fun c => is_lower c = true) w ->
  runs_from cur (w ++ r) = runs_from (cur ++ w) r.
Proof.
  induction w as [|c w IH]; intros cur r Hw; simpl.
  - rewrite app_nil_r; reflexivity.
  - inversion Hw as [|? ? Hc Hw']; subst. rewrite Hc, IH by assumption.
    rewrite <- app_assoc; reflexivity.
Qed.

Lemma findall_skip : forall xs r, findall_az3_go (length xs) (xs ++ r) = findall_az3_go 0 r.
Proof. induction xs as [|x xs IH]; intros r; simpl; auto. Qed.

Lemma runs_from_boundary : forall cur r,
  (r = [] \/ exists c t, r = c :: t /\ is_lower c = false) ->
  runs_from cur r = flush cur ++ match r with [] => [] | _ :: t => runs t end.
Proof.
  intros cur r [-> | [c [t [-> Hc]]]]; simpl.
  - rewrite app_nil_r; reflexivity.
  - rewrite Hc; reflexivity.
Qed.

Lemma findall_az3_runs : forall s, findall_az3 s = runs s.
Proof.
  unfold findall_az3, runs.
  intros s; remember (length s) as n eqn:Hn.
  revert s Hn; induction n as [n IH] using lt_wf_ind; intros s Hn.
  destruct s as [|c t]; [reflexivity|].
  cbn [findall_az3_go runs_from take_lower]. destruct (is_lower c) eqn:Ec.
  - destruct (take_lower_split t) as [r [Ht [Hw Hr]]].
    set (w := take_lower t) in *. clearbody w. subst t.
    rewrite runs_from_letters by assumption.
    rewrite runs_from_boundary by assumption.
    assert (Hr' : findall_az3_go 0 r = match r with [] => [] | _ :: t' => runs t' end).
    { destruct Hr as [-> | [d [t' [-> Hd]]]]; [reflexivity|].
      simpl. rewrite Hd. apply (IH (length t')); auto.
      subst n. simpl. rewrite length_app. simpl. lia. }
    unfold flush. cbn [app length].
    destruct (Nat.leb_spec 3 (S (length w))).
    + rewrite Nat.sub_succ, Nat.sub_0_r, findall_skip, Hr'. reflexivity.
    + rewrite (IH (length (w ++ r))) by (subst n; simpl; lia).
      rewrite runs_from_letters by assumption.
      rewrite runs_from_boundary by assumption.
      unfold flush. cbn [app].
      destruct (Nat.leb_spec 3 (length w)); [lia|]. reflexivity.
  - cbn [length] in Hn. simpl. apply (IH (length t)); lia.
Qed.

(** ** The best-pair scan *)

Section Argmax.
Variables (A : Type) (sc : A -> Q) (nm : A -> str).

(** [if score > best_score: best_name, best_score = ...] over any list. *)
Definition am_step (acc : str * Q) (x : A) : str * Q :=
  let '(n, s) := acc in if Qgtb (sc x) s then (nm x, sc x) else (n, s).

Definition first_name (s : Q) (l : list A) (dflt : str) : str :=
  match find (fun x => Qeq_bool (sc x) s) l with Some x => nm x | None => dflt end.

Lemma Qgtb_true : forall x y, Qgtb x y = true <-> (y < x)%Q.
Proof.
  intros x y; unfold Qgtb. rewrite negb_true_iff.
  split; intros H.
  - apply Qnot_le_lt; intros H'; apply Qle_bool_iff in H'; congruence.
  - destruct (Qle_bool x y) eqn:E; auto. apply Qle_bool_iff in E.
    exfalso; apply (Qlt_not_le _ _ H E).
Qed.

Lemma qmax_from_proper : forall l m1 m2, (m1 == m2)%Q -> (qmax_from m1 l == qmax_from m2 l)%Q.
Proof.
  induction l as [|x l IH]; intros m1 m2 H; simpl; auto.
  apply IH. rewrite H. destruct (Qle_bool m2 x); [reflexivity | exact H].
Qed.

Lemma qmax_from_ge : forall l m, (m <= qmax_from m l)%Q.
Proof.
  induction l as [|x l IH]; intros m; simpl; [apply Qle_refl|].
  destruct (Qle_bool m x) eqn:E.
  - apply Qle_bool_iff in E. eapply Qle_trans; [exact E | apply IH].
  - apply IH.
Qed.

(** The maximum above [m] is reached by an element. *)
Lemma qmax_from_reached : forall l m,
  (m < qmax_from m l)%Q -> exists x, In x l /\ (x == qmax_from m l)%Q.
Proof.
  induction l as [|x l IH]; intros m H; simpl in *.
  - exfalso; apply (Qlt_irrefl _ H).
  - set (m' := if Qle_bool m x then x else m) in *.
    destruct (Qlt_le_dec m' (qmax_from m' l)) as [Hlt|Hle].
    + destruct (IH m' Hlt) as [y [Hy Hy']]; eauto.
    + assert (Heq : (qmax_from m' l == m')%Q)
        by (apply Qle_antisym; [exact Hle | apply qmax_from_ge]).
      subst m'. destruct (Qle_bool m x) eqn:E.
      * exists x; split; auto. symmetry; exact Heq.
      * exfalso. rewrite Heq in H. apply (Qlt_irrefl _ H).
Qed.

Lemma find_some_reached : forall l s,
  (exists x, In x (map sc l) /\ (x == s)%Q) ->
  exists y, find (fun x => Qeq_bool (sc x) s) l = Some y.
Proof.
  induction l as [|y l IH]; intros s [x [Hx Hxs]]; simpl in *; [contradiction|].
  destruct (Qeq_bool (sc y) s) eqn:E; eauto.
  destruct Hx as [<-|Hx].
  - apply Qeq_bool_iff in Hxs; congruence.
  - apply IH; eauto.
Qed.

(** The scan keeps the maximum and the name of the first element reaching
    it, provided it beats the initial score. *)
Lemma am_fold : forall l n s,
  let '(n', s') := fold_left am_step l (n, s) in
  (s' == qmax_from s (map sc l))%Q /\
  n' = (if Qle_bool s' s then n else first_name s' l n).
Proof.
  induction l as [|x l IH]; intros n s; simpl.
  - split; [reflexivity|]. rewrite (proj2 (Qle_bool_iff s s) (Qle_refl s)). reflexivity.
  - unfold first_name in *. simpl. destruct (Qgtb (sc x) s) eqn:Eg.
    + apply Qgtb_true in Eg.
      specialize (IH (nm x) (sc x)).
      destruct (fold_left am_step l (nm x, sc x)) as [n' s'].
      destruct IH as [Hs Hn].
      assert (Hxle : (sc x <= s')%Q) by (rewrite Hs; apply qmax_from_ge).
      rewrite (proj2 (Qle_bool_iff s (sc x)) (Qlt_le_weak _ _ Eg)).
      split; [exact Hs|].
      destruct (Qle_bool s' s) eqn:E1.
      { apply Qle_bool_iff in E1. exfalso.
        apply (Qlt_not_le _ _ Eg). eapply Qle_trans; eauto. }
      rewrite Hn. destruct (Qle_bool s' (sc x)) eqn:E2.
      * apply Qle_bool_iff in E2.
        assert (Hq : Qeq_bool (sc x) s' = true)
          by (apply Qeq_bool_iff, Qle_antisym; auto).
        rewrite Hq. reflexivity.
      * assert (Hq : Qeq_bool (sc x) s' = false).
        { destruct (Qeq_bool (sc x) s') eqn:Hq; auto.
          apply Qeq_bool_iff in Hq. rewrite Hq in E2.
          rewrite (proj2 (Qle_bool_iff s' s') (Qle_refl s')) in E2. discriminate. }
        rewrite Hq.
        assert (Hlt : (sc x < s')%Q).
        { apply Qnot_le_lt. intros H. apply Qle_bool_iff in H. congruence. }
        destruct (find_some_reached l s') as [y Hy].
        { rewrite Hs in Hlt. destruct (qmax_from_reached (map sc l) (sc x) Hlt) as [z [Hz Hz']].
          exists z; split; auto. rewrite Hs; exact Hz'. }
        rewrite Hy; reflexivity.
    + assert (Hle : (sc x <= s)%Q).
      { apply Qnot_lt_le. intros H. apply Qgtb_true in H. congruence. }
      specialize (IH n s).
      destruct (fold_left am_step l (n, s)) as [n' s'].
      destruct IH as [Hs Hn]. split.
      * rewrite Hs. apply qmax_from_proper.
        destruct (Qle_bool s (sc x)) eqn:E; [|reflexivity].
        apply Qle_bool_iff in E. apply Qle_antisym; auto.
      * rewrite Hn. destruct (Qle_bool s' s) eqn:E1; auto.
        assert (Hq : Qeq_bool (sc x) s' = false).
        { destruct (Qeq_bool (sc x) s') eqn:Hq; auto.
          apply Qeq_bool_iff in Hq. rewrite <- Hq in E1.
          rewrite (proj2 (Qle_bool_iff (sc x) s) Hle) in E1. discriminate. }
        rewrite Hq; reflexivity.
Qed.

Lemma am_fold_eq : forall l n s n' s',
  fold_left am_step l (n, s) = (n', s') ->
  (s' == qmax_from s (map sc l))%Q /\
  n' = (if Qle_bool s' s then n else first_name s' l n).
Proof.
  intros l n s n' s' E. pose proof (am_fold l n s) as H. rewrite E in H. exact H.
Qed.

End Argmax.

(** ** The Name Resolver *)

Lemma fold_scan_cand_pairs : forall cands acc,
  fold_left scan_cand cands acc =
  fold_left (am_step _ pair_score snd)
    (flat_map (fun cand => map (fun real => (cand, real)) KNOWN_RECIPIENTS) cands) acc.
Proof.
  induction cands as [|c cands IH]; intros acc; simpl; auto.
Qed.

Lemma find_qeq_ext : forall (A : Type) (f : A -> Q) s1 s2 l, (s1 == s2)%Q ->
  find (fun x => Qeq_bool (f x) s1) l = find (fun x => Qeq_bool (f x) s2) l.
Proof.
  intros A f s1 s2 l H; induction l as [|x l IH]; simpl; auto.
  rewrite H, IH; reflexivity.
Qed.

(** C4: the Name Resolver returns the known name of the first
    (bigram, known name) pair, bigrams left to right and then whitelist
    order, whose score is the maximum over all pairs, when that maximum is
    at least 0.75, and the empty string otherwise; the bigrams are formed
    from the maximal runs of at least three lowercase letters. *)
Theorem match_known_name_from_text_spec : forall text,
  match_known_name_from_text text = resolve_spec text.
Proof.
  intros text. unfold match_known_name_from_text, resolve_spec, name_pairs.
  rewrite findall_az3_runs, fold_scan_cand_pairs.
  set (l := flat_map _ _). clearbody l.
  destruct (fold_left _ l _) as [n' s'] eqn:Ef.
  apply am_fold_eq in Ef. destruct Ef as [Hs Hn].
  destruct l as [|p0 ps].
  - simpl in Hs. rewrite Hs. reflexivity.
  - cbn [map qmax_from] in Hs.
    rewrite (proj2 (Qle_bool_iff 0 (pair_score p0)) (proj1 (similarity_bounds _ _))) in Hs.
    set (m := qmax_from (pair_score p0) (map pair_score ps)) in *.
    rewrite Hs. destruct (Qle_bool (3 # 4) m) eqn:E; auto.
    rewrite Hn. apply Qle_bool_iff in E.
    destruct (Qle_bool s' 0) eqn:E0.
    { apply Qle_bool_iff in E0. rewrite Hs in E0.
      exfalso. apply (Qle_not_lt _ _ (Qle_trans _ _ _ E E0)). reflexivity. }
    unfold first_name. rewrite (find_qeq_ext _ pair_score s' m (p0 :: ps) Hs).
    destruct (find _ _); reflexivity.
Qed.

(** The scan only ever records whitelist names. *)
Lemma scan_name_known : forall cands acc,
  fst acc = [] \/ In (fst acc) KNOWN_RECIPIENTS ->
  let r := fold_left scan_cand cands acc in
  fst r = [] \/ In (fst r) KNOWN_RECIPIENTS.
Proof.
  induction cands as [|c cands IH]; intros acc Hacc; simpl; auto.
  apply IH. unfold scan_cand.
  assert (Hgen : forall l acc', (forall r, In r l -> In r KNOWN_RECIPIENTS) ->
            fst acc' = [] \/ In (fst acc') KNOWN_RECIPIENTS ->
            fst (fold_left (scan_step c) l acc') = [] \/
            In (fst (fold_left (scan_step c) l acc')) KNOWN_RECIPIENTS).
  { induction l as [|r l IHl]; intros [n s] Hl Hns; simpl; auto.
    apply IHl; [intros; apply Hl; simpl; auto|].
    unfold scan_step. destruct (Qgtb (similarity c r) s); simpl; auto.
    right; apply Hl; simpl; auto. }
  apply Hgen; auto.
Qed.

Lemma match_known_name_in_whitelist : forall text,
  match_known_name_from_text text = [] \/
  In (match_known_name_from_text text) KNOWN_RECIPIENTS.
Proof.
  intros text. unfold match_known_name_from_text.
  pose proof (scan_name_known (bigrams (findall_az3 (lower text))) ([], 0%Q)
                (or_introl eq_refl)) as H.
  destruct (fold_left scan_cand _ _) as [n s]; simpl in H.
  destruct (Qle_bool (3 # 4) s); auto.
Qed.

(** C10: with fewer than two maximal runs of at least three lowercase
    letters in the lower-cased text no bigram exists and the Name Resolver
    returns the empty string. *)
Theorem match_known_name_few_words : forall text,
  length (runs (lower text)) < 2 -> match_known_name_from_text text = [].
Proof.
  intros text H. unfold match_known_name_from_text. rewrite findall_az3_runs.
  destruct (runs (lower text)) as [|w [|w2 ws]]; simpl in H; try lia; reflexivity.
Qed.

Lemma match_known_name_few_words_witness :
  length (runs (lower (s2l "Zoey"))) < 2 /\ match_known_name_from_text (s2l "Zoey") = [].
Proof.
  split; [vm_compute; lia|]. apply match_known_name_few_words. vm_compute; lia.
Defined.

(** C1: every record [extract_final] returns has an empty recipient name
    or one of the whitelist names, whatever the model responds. *)
Theorem extract_final_name_whitelisted : forall jl co ocr r,
  extract_final jl co ocr = Ok r ->
  recipient_name r = [] \/ In (recipient_name r) KNOWN_RECIPIENTS.
Proof.
  intros jl co ocr r H. unfold extract_final in H.
  destruct (co (clean_ocr ocr)) as [resp|e]; simpl in H; [|discriminate].
  destruct (get_stripped _ _) as [rn|e]; simpl in H; [|discriminate].
  destruct (get_stripped _ _) as [ra|e]; simpl in H; [|discriminate].
  injection H as <-. simpl.
  destruct (nonempty rn);
    [destruct (nonempty (match_known_name_from_text rn)) eqn:E|];
    try apply match_known_name_in_whitelist.
Qed.

Lemma extract_final_name_whitelisted_witness :
  extract_final Json.loads (fun _ => Ok (s2l "{}")) record1
    = Ok {| recipient_name := s2l "Zoey Dong"; recipient_address := [] |} /\
  (s2l "Zoey Dong" = [] \/ In (s2l "Zoey Dong") KNOWN_RECIPIENTS).
Proof.
  assert (E : extract_final Json.loads (fun _ => Ok (s2l "{}")) record1
    = Ok {| recipient_name := s2l "Zoey Dong"; recipient_address := [] |})
    by (vm_compute; reflexivity).
  split; [exact E|].
  exact (extract_final_name_whitelisted Json.loads (fun _ => Ok (s2l "{}")) record1
           {| recipient_name := s2l "Zoey Dong"; recipient_address := [] |} E).
Defined.

(** ** Whitespace around the model's name does not change the resolver *)

Lemma space_not_lower : forall c, is_space c = true -> is_lower (lower_char c) = false.
Proof.
  intros c H. unfold is_space in H. unfold lower_char, is_upper, is_lower.
  apply orb_true_iff in H.
  destruct H as [H|H]; apply andb_true_iff in H; destruct H as [H1 H2];
    apply Nat.leb_le in H1; apply Nat.leb_le in H2;
    rewrite (proj2 (Nat.leb_gt 65 (code c))) by lia; cbn [andb];
    rewrite (proj2 (Nat.leb_gt 97 (code c))) by lia; reflexivity.
Qed.

Lemma lstrip_split : forall s, exists sp, s = sp ++ lstrip s /\ Forall (fun c => is_space c = true) sp.
Proof.
  induction s as [|c t [sp [E F]]]; simpl.
  - exists []; auto.
  - destruct (is_space c) eqn:Hc.
    + exists (c :: sp); simpl; rewrite <- E; auto.
    + exists []; auto.
Qed.

Lemma rstrip_split : forall s, exists sp, s = rstrip s ++ sp /\ Forall (fun c => is_space c = true) sp.
Proof.
  intros s. destruct (lstrip_split (rev s)) as [sp [E F]].
  exists (rev sp). unfold rstrip. split.
  - rewrite <- rev_app_distr, <- E, rev_involutive; reflexivity.
  - apply Forall_rev; exact F.
Qed.

Lemma runs_from_nonletters : forall ys cur,
  Forall (fun c => is_lower c = false) ys -> runs_from cur ys = flush cur.
Proof.
  induction ys as [|c ys IH]; intros cur F; simpl; auto.
  inversion F; subst. rewrite H1, IH by assumption. apply app_nil_r.
Qed.

Lemma runs_from_suffix : forall x ys cur,
  Forall (fun c => is_lower c = false) ys -> runs_from cur (x ++ ys) = runs_from cur x.
Proof.
  induction x as [|c x IH]; intros ys cur F; simpl.
  - apply runs_from_nonletters; exact F.
  - destruct (is_lower c); rewrite IH; auto.
Qed.

Lemma runs_prefix : forall ys x,
  Forall (fun c => is_lower c = false) ys -> runs (ys ++ x) = runs x.
Proof.
  unfold runs. induction ys as [|c ys IH]; intros x F; simpl; auto.
  inversion F; subst. rewrite H1. simpl. apply IH; assumption.
Qed.

Lemma lower_spaces : forall sp, Forall (fun c => is_space c = true) sp ->
  Forall (fun c => is_lower c = false) (lower sp).
Proof.
  intros sp F. unfold lower. apply Forall_map.
  eapply Forall_impl; [|exact F]. intros c; apply space_not_lower.
Qed.

Lemma runs_lower_strip : forall s, runs (lower (strip s)) = runs (lower s).
Proof.
  intros s. unfold strip.
  destruct (lstrip_split s) as [sp1 [E1 F1]].
  destruct (rstrip_split (lstrip s)) as [sp2 [E2 F2]].
  transitivity (runs (lower (lstrip s))).
  - rewrite E2 at 2. unfold lower at 2. rewrite map_app. fold (lower (rstrip (lstrip s))).
    fold (lower sp2). unfold runs. rewrite runs_from_suffix; [reflexivity|].
    apply lower_spaces; exact F2.
  - rewrite E1 at 2. unfold lower at 2. rewrite map_app.
    fold (lower sp1). fold (lower (lstrip s)). rewrite runs_prefix; [reflexivity|].
    apply lower_spaces; exact F1.
Qed.

Lemma match_known_strip : forall s,
  match_known_name_from_text (strip s) = match_known_name_from_text s.
Proof.
  intros s. unfold match_known_name_from_text.
  rewrite !findall_az3_runs, runs_lower_strip. reflexivity.
Qed.

Lemma match_known_nil : match_known_name_from_text [] = [].
Proof. reflexivity. Qed.

Lemma get_stripped_field : forall data key,
  get_stripped data key =
  match field_str data key with Some s => Ok (strip s) | None => Err AttributeError end.
Proof.
  intros [| | | | |kv] key; try reflexivity. unfold get_stripped, field_str.
  destruct (dict_get kv key) as [[]|]; reflexivity.
Qed.

(** C9: when the model's name field [n] does not resolve (in particular
    when it is empty) the record's name is the Name Resolver applied to the
    raw OCR text; when it resolves, the resolved whitelist name is kept. *)
Theorem extract_final_name_fallback : forall jl co ocr resp n r,
  co (clean_ocr ocr) = Ok resp ->
  field_str (extract_json jl resp) (s2l "recipient_name") = Some n ->
  extract_final jl co ocr = Ok r ->
  (match_known_name_from_text n = [] -> recipient_name r = match_known_name_from_text ocr) /\
  (match_known_name_from_text n <> [] -> recipient_name r = match_known_name_from_text n).
Proof.
  intros jl co ocr resp n r Hco Hn H. unfold extract_final in H.
  rewrite Hco in H. cbv beta iota delta [bind] in H.
  rewrite get_stripped_field, Hn in H. cbv beta iota in H.
  destruct (get_stripped _ _) as [ra|e]; cbv beta iota in H; [|discriminate].
  injection H as <-. cbn [recipient_name]. rewrite <- (match_known_strip n).
  destruct (strip n) as [|c t] eqn:Es; simpl nonempty; cbv iota.
  - rewrite match_known_nil. split; [reflexivity|]. intros C; congruence.
  - destruct (match_known_name_from_text (c :: t)) as [|d u]; simpl nonempty; cbv iota.
    + split; [reflexivity|]. intros C; congruence.
    + split; [discriminate|reflexivity].
Qed.

Lemma extract_final_name_fallback_witness :
  let r := {| recipient_name := s2l "Zoey Dong"; recipient_address := [] |} in
  (match_known_name_from_text [] = [] -> recipient_name r = match_known_name_from_text record1) /\
  (match_known_name_from_text [] <> [] -> recipient_name r = match_known_name_from_text []).
Proof.
  apply (extract_final_name_fallback Json.loads (fun _ => Ok (s2l "{}")) record1 (s2l "{}") []);
    vm_compute; reflexivity.
Defined.

(** ** [re.search(r"\{.*\}", resp, re.DOTALL)] *)

Lemma advance_snd : forall k p u, snd (advance k (p, u)) = skipn k u.
Proof.
  induction k as [|k IH]; intros p [|c u]; simpl; auto.
Qed.

Lemma last_index_of_lt : forall c s k, last_index_of c s = Some k -> k < length s.
Proof.
  intros c; induction s as [|d s IH]; intros k H; simpl in H; [discriminate|].
  destruct (last_index_of c s) as [j|] eqn:E.
  - injection H as <-. specialize (IH j eq_refl). simpl; lia.
  - destruct (Ascii.eqb d c); [injection H as <-; simpl; lia | discriminate].
Qed.

Lemma first_some_map : forall (A B C : Type) (f : B -> option C) (g : A -> B) l,
  first_some f (map g l) = first_some (fun x => f (g x)) l.
Proof. induction l as [|x l IH]; simpl; auto. rewrite IH; reflexivity. Qed.

Lemma first_some_option_map : forall (A B C : Type) (f : A -> option B) (h : B -> C) l,
  option_map h (first_some f l) = first_some (fun x => option_map h (f x)) l.
Proof. induction l as [|x l IH]; simpl; auto. destruct (f x); simpl; auto. Qed.

Lemma first_some_app : forall (A B : Type) (f : A -> option B) l1 l2,
  first_some f (l1 ++ l2) =
  match first_some f l1 with Some y => Some y | None => first_some f l2 end.
Proof. induction l1 as [|x l IH]; intros l2; simpl; auto. rewrite IH. destruct (f x); auto. Qed.

Lemma first_some_ext : forall (A B : Type) (f g : A -> option B) l,
  (forall x, f x = g x) -> first_some f l = first_some g l.
Proof. intros A B f g l H; induction l as [|x l IH]; simpl; auto. rewrite H, IH; reflexivity. Qed.

Lemma count_class_any : forall u, count_class any_char u = length u.
Proof. induction u as [|c u IH]; simpl; auto. Qed.

(** The rest of the text after [.*\}] at [u]: the greedy star backs off to
    the last [}]. *)
Definition close_at (u : str) (k : nat) : option str :=
  if prefixb ["}"%char] (skipn k u) then Some (skipn (S k) u) else None.

Lemma close_at_last : forall u,
  first_some (close_at u) (rev (seq 0 (S (length u)))) =
  option_map (fun k => skipn (S k) u) (last_index_of "}"%char u).
Proof.
  induction u as [|c t IH].
  - reflexivity.
  - replace (rev (seq 0 (S (length (c :: t)))))
      with (map S (rev (seq 0 (S (length t)))) ++ [0])
      by (rewrite map_rev, seq_shift; reflexivity).
    rewrite first_some_app, first_some_map.
    change (first_some (fun x => close_at (c :: t) (S x)) (rev (seq 0 (S (length t)))))
      with (first_some (close_at t) (rev (seq 0 (S (length t))))).
    rewrite IH. cbn [last_index_of].
    destruct (last_index_of "}"%char t) as [j|]; [reflexivity|].
    unfold close_at; cbn [first_some skipn prefixb].
    rewrite andb_true_r, Ascii.eqb_sym. destruct (Ascii.eqb c "}"%char); reflexivity.
Qed.

Lemma star_close_rest : forall (p : option ascii) (u : str),
  option_map snd (match_pieces [PAtom (AClass any_char 0 None true); PAtom (lit "}")]
                    (@pair (option ascii) str p u))
  = option_map (fun k => skipn (S k) u) (last_index_of "}"%char u).
Proof.
  intros p u. rewrite <- close_at_last.
  cbn [match_pieces ends_atom]. rewrite count_class_any.
  replace (length u <? 0) with false by (symmetry; apply Nat.ltb_ge; lia).
  rewrite Nat.sub_0_r, first_some_map, first_some_option_map.
  apply first_some_ext. intros k.
  pose proof (advance_snd k p u) as E. destruct (advance k (p, u)) as [p' w].
  simpl in E; subst w. unfold lit, close_at.
  replace (skipn (S k) u) with (skipn 1 (skipn k u)) by (rewrite skipn_skipn; reflexivity).
  generalize (skipn k u) as w. intros [|d w]; [reflexivity|].
  unfold s2l. cbn -[Ascii.eqb]. rewrite andb_true_r.
  destruct (Ascii.eqb "}"%char d); reflexivity.
Qed.

Lemma brace_match_len : forall prev c t,
  match_len BRACE_RE prev (c :: t) =
  if Ascii.eqb c "{"%char
  then option_map (fun k => S (S k)) (last_index_of "}"%char t) else None.
Proof.
  intros prev c t. unfold match_len, BRACE_RE.
  pose proof (star_close_rest (Some c) t) as H.
  assert (E : match_pieces BRACE_RE (@pair (option ascii) str prev (c :: t)) =
    if Ascii.eqb c "{"%char
    then match_pieces [PAtom (AClass any_char 0 None true); PAtom (lit "}")]
           (@pair (option ascii) str (Some c) t)
    else None).
  { change (match_pieces BRACE_RE (@pair (option ascii) str prev (c :: t))) with
      (first_some (match_pieces [PAtom (AClass any_char 0 None true); PAtom (lit "}")])
         ((if Ascii.eqb "{"%char c && true then [advance 1 (prev, c :: t)] else []) ++ [])).
    rewrite andb_true_r, Ascii.eqb_sym.
    destruct (Ascii.eqb c "{"%char); [|reflexivity]. cbn [app first_some advance].
    destruct (match_pieces _ _); reflexivity. }
  unfold BRACE_RE in E. rewrite E. clear E.
  destruct (Ascii.eqb c "{"%char); [|reflexivity].
  transitivity (option_map (fun rest => length (c :: t) - length rest)
    (option_map snd (match_pieces [PAtom (AClass any_char 0 None true); PAtom (lit "}")]
                       (@pair (option ascii) str (Some c) t)))).
  { destruct (match_pieces _ _) as [[p' rest]|]; reflexivity. }
  rewrite H. destruct (last_index_of "}"%char t) as [k|] eqn:Ek; [|reflexivity].
  cbn [option_map]. f_equal. pose proof (last_index_of_lt _ _ _ Ek) as Hk.
  rewrite length_skipn. cbn [length]. lia.
Qed.

Lemma search_brace : forall s, search BRACE_RE s = brace_span s.
Proof.
  unfold search. intros s. generalize (@None ascii) as prev. revert s.
  induction s as [|c t IH]; intros prev.
  - reflexivity.
  - cbn [search_go]. rewrite brace_match_len. unfold brace_span. cbn [index_of last_index_of].
    destruct (Ascii.eqb c "{"%char) eqn:Ec.
    + destruct (last_index_of "}"%char t) as [k|] eqn:Ek.
      * cbn [option_map]. rewrite Nat.sub_0_r, Nat.add_1_r. reflexivity.
      * apply Ascii.eqb_eq in Ec; subst c. cbn [option_map Ascii.eqb Bool.eqb].
        rewrite IH. unfold brace_span. rewrite Ek.
        destruct (index_of "{"%char t); reflexivity.
    + rewrite IH. unfold brace_span.
      destruct (index_of "{"%char t) as [i|]; [|reflexivity]. cbn [option_map].
      destruct (last_index_of "}"%char t) as [j|].
      * cbn [Nat.ltb Nat.leb skipn]. replace (S j - S i) with (j - i) by lia. reflexivity.
      * destruct (Ascii.eqb c "}"%char); reflexivity.
Qed.

(** C8: [extract_json] looks at the text from the first [{] to the last [}]
    (any characters, newlines included, in between); with no such span, or
    when [json.loads] fails on it, the result is the empty object [{}].  It
    is a total function: it never raises. *)
Theorem extract_json_spec : forall jl resp,
  extract_json jl resp =
  match brace_span resp with
  | None => JObj []
  | Some span => match jl span with Some v => v | None => JObj [] end
  end.
Proof.
  intros jl resp. unfold extract_json. rewrite search_brace. reflexivity.
Qed.

(** ** A [null] name in the model's JSON *)

Lemma get_stripped_null_name :
  get_stripped (extract_json Json.loads resp_null) (s2l "recipient_name") = Err AttributeError.
Proof. vm_compute. reflexivity. Qed.

(** C2 (code bug): a well-formed JSON response whose [recipient_name] is
    [null] makes [extract_final] raise [AttributeError] ([None.strip()]) for
    every OCR input, although the backend call succeeded. *)
Theorem extract_final_null_name_raises : forall ocr,
  extract_final Json.loads (fun _ => Ok resp_null) ocr = Err AttributeError.
Proof.
  intros ocr. unfold extract_final. cbv beta iota zeta delta [bind].
  rewrite get_stripped_null_name. reflexivity.
Qed.

(** ** The address field *)

(** C3: the record's address is the model's address with surrounding
    whitespace stripped when that is non-empty; otherwise it is
    [fallback_address] of the raw OCR text: the first of the two patterns
    (in order) found in the lower-cased text, title-cased, or empty. *)
Theorem extract_final_address : forall jl co ocr resp a r,
  co (clean_ocr ocr) = Ok resp ->
  field_str (extract_json jl resp) (s2l "recipient_address") = Some a ->
  extract_final jl co ocr = Ok r ->
  recipient_address r = if nonempty (strip a) then strip a else fallback_address ocr.
Proof.
  intros jl co ocr resp a r Hco Ha H. unfold extract_final in H.
  rewrite Hco in H. cbv beta iota zeta delta [bind] in H.
  destruct (get_stripped _ (s2l "recipient_name")) as [rn|e]; cbv beta iota in H; [|discriminate].
  rewrite get_stripped_field, Ha in H. cbv beta iota in H.
  injection H as <-. reflexivity.
Qed.

Lemma extract_final_address_witness :
  recipient_address {| recipient_name := s2l "Zoey Dong"; recipient_address := s2l "12 Main St" |}
  = (if nonempty (strip (s2l " 12 Main St ")) then strip (s2l " 12 Main St ")
     else fallback_address record1).
Proof.
  apply (extract_final_address Json.loads (fun _ => Ok resp_spaced_addr) record1
           resp_spaced_addr (s2l " 12 Main St "));
    vm_compute; reflexivity.
Defined.

(** C3 counterexample: a non-empty model address is not kept unchanged; its
    surrounding spaces are stripped. *)
Lemma extract_final_address_not_verbatim :
  field_str (extract_json Json.loads resp_spaced_addr) (s2l "recipient_address")
    = Some (s2l " 12 Main St ") /\
  extract_final Json.loads (fun _ => Ok resp_spaced_addr) record1
    = Ok {| recipient_name := s2l "Zoey Dong"; recipient_address := s2l "12 Main St" |} /\
  s2l "12 Main St" <> s2l " 12 Main St ".
Proof.
  split; [vm_compute; reflexivity|]. split; [vm_compute; reflexivity|]. discriminate.
Qed.

(** ** The first recorded label *)

Lemma match_known_record1 : match_known_name_from_text record1 = s2l "Zoey Dong".
Proof. vm_compute. reflexivity. Qed.

Lemma fallback_address_record1 : fallback_address record1 = [].
Proof. vm_compute. reflexivity. Qed.

(** C5: on the first recorded label, when both fields of the model's
    response strip to the empty string, the name falls back to the OCR text
    and resolves to "Zoey Dong"; the address fallback finds no pattern
    (the label's fields are separated by commas and the ZIP code precedes
    the city), so the address is empty. *)
Theorem extract_final_record1 : forall jl co resp n a,
  co (clean_ocr record1) = Ok resp ->
  field_str (extract_json jl resp) (s2l "recipient_name") = Some n -> strip n = [] ->
  field_str (extract_json jl resp) (s2l "recipient_address") = Some a -> strip a = [] ->
  extract_final jl co record1 = Ok {| recipient_name := s2l "Zoey Dong"; recipient_address := [] |}.
Proof.
  intros jl co resp n a Hco Hn Hsn Ha Hsa. unfold extract_final.
  rewrite Hco. cbv beta iota zeta delta [bind].
  rewrite !get_stripped_field, Hn, Ha. cbv beta iota. rewrite Hsn, Hsa. cbn [nonempty].
  rewrite match_known_record1, fallback_address_record1. reflexivity.
Qed.

Lemma extract_final_record1_witness :
  extract_final Json.loads (fun _ => Ok (s2l "{}")) record1
    = Ok {| recipient_name := s2l "Zoey Dong"; recipient_address := [] |}.
Proof.
  apply (extract_final_record1 Json.loads (fun _ => Ok (s2l "{}")) (s2l "{}") [] []);
    vm_compute; reflexivity.
Defined.

(** C5 counterexample: with an empty model response the address of the
    first label is empty, so it contains neither "2821 Carradale Dr" nor
    "95661". *)
Lemma extract_final_record1_empty_address :
  match extract_final Json.loads (fun _ => Ok (s2l "{}")) record1 with
  | Ok r => recipient_address r = []
  | Err _ => False
  end.
Proof. vm_compute. reflexivity. Qed.

(** ** The similarity score *)

(** C6: [similarity] ignores case (lower-casing both arguments does not
    change it) and lies in [[0, 1]]; it is not symmetric (see the
    counterexample below). *)
Theorem similarity_case_insensitive_bounded : forall a b,
  similarity (lower a) (lower b) = similarity a b /\
  (0 <= similarity a b <= 1)%Q.
Proof.
  intros a b. unfold similarity.
  rewrite !lower_lower. split; [reflexivity|].
  apply ratio_bounds.
Qed.

(** C6 counterexample: [SequenceMatcher]'s longest-match search depends on
    the order of its arguments; "tide"/"diet" scores 2/8 one way and 4/8
    the other. *)
Lemma similarity_not_symmetric :
  similarity (s2l "tide") (s2l "diet") = (2 # 8)%Q /\
  similarity (s2l "diet") (s2l "tide") = (4 # 8)%Q /\
  ~ (forall a b, similarity a b == similarity b a)%Q.
Proof.
  assert (E1 : similarity (s2l "tide") (s2l "diet") = (2 # 8)%Q) by (vm_compute; reflexivity).
  assert (E2 : similarity (s2l "diet") (s2l "tide") = (4 # 8)%Q) by (vm_compute; reflexivity).
  split; [exact E1|]. split; [exact E2|].
  intros H. specialize (H (s2l "tide") (s2l "diet")). rewrite E1, E2 in H.
  vm_compute in H. discriminate.
Qed.

(** ** The normaliser's output *)

Lemma sub_go_forall : forall (P : ascii -> Prop) ps repl k prev s,
  Forall P s -> Forall P repl -> Forall P (sub_go ps repl k prev s).
Proof.
  intros P ps repl k prev s; revert k prev.
  induction s as [|c t IH]; intros k prev Hs Hr; simpl; auto.
  inversion Hs; subst.
  destruct k as [|k].
  - destruct (match_len ps prev (c :: t)) as [[|n]|].
    + constructor; auto.
    + apply Forall_app; split; auto.
    + constructor; auto.
  - apply IH; auto.
Qed.

Lemma lower_char_not_upper : forall c, is_upper (lower_char c) = false.
Proof.
  intros c. unfold lower_char. destruct (is_upper c) eqn:E; auto.
  unfold is_upper in *. apply andb_true_iff in E. destruct E as [E1 E2].
  apply Nat.leb_le in E1. apply Nat.leb_le in E2.
  unfold code. rewrite nat_ascii_embedding by (unfold code in E2; lia).
  unfold code in E1, E2.
  rewrite (proj2 (Nat.leb_gt _ 90)) by lia. apply andb_false_r.
Qed.

Lemma lower_id : forall s, Forall (fun c => is_upper c = false) s -> lower s = s.
Proof.
  induction s as [|c t IH]; intros H; simpl; auto.
  inversion H; subst. unfold lower_char at 1. rewrite H2. f_equal. apply IH; auto.
Qed.

Lemma Forall_strip : forall (P : ascii -> Prop) s, Forall P s -> Forall P (strip s).
Proof.
  intros P s H. unfold strip.
  destruct (lstrip_split s) as [sp1 [E1 _]].
  destruct (rstrip_split (lstrip s)) as [sp2 [E2 _]].
  rewrite E1 in H. apply Forall_app in H. destruct H as [_ H].
  rewrite E2 in H. apply Forall_app in H. tauto.
Qed.

Lemma space_match_len : forall prev c t,
  match_len SPACES_RE prev (c :: t) =
  if is_space c then Some (S (count_class is_space t)) else None.
Proof.
  intros prev c t. unfold match_len, SPACES_RE. cbn [match_pieces ends_atom count_class].
  destruct (is_space c) eqn:Ec.
  - cbn [Nat.ltb Nat.leb]. rewrite Nat.sub_1_r. cbn [Nat.pred].
    replace (seq 1 (S (count_class is_space t))) with
      (seq 1 (count_class is_space t) ++ [S (count_class is_space t)]).
    2:{ rewrite seq_S. reflexivity. }
    rewrite rev_app_distr. cbn [rev app map first_some match_pieces].
    pose proof (advance_snd (S (count_class is_space t)) prev (c :: t)) as E.
    destruct (advance _ _) as [p' rest]. simpl in E. subst rest.
    f_equal. rewrite length_skipn. cbn [length].
    assert (count_class is_space t <= length t).
    { clear. induction t as [|d t IH]; simpl; [lia|]. destruct (is_space d); simpl; lia. }
    lia.
  - reflexivity.
Qed.

Lemma sub_spaces_collapse : forall s,
  (forall prev, sub_go SPACES_RE [" "%char] 0 prev s = collapse_go false s) /\
  (forall prev, sub_go SPACES_RE [" "%char] (count_class is_space s) prev s = collapse_go true s).
Proof.
  induction s as [|c t [IH0 IH1]].
  - split; reflexivity.
  - assert (H0 : forall prev, sub_go SPACES_RE [" "%char] 0 prev (c :: t) = collapse_go false (c :: t)).
    { intros prev. cbn [sub_go collapse_go]. rewrite space_match_len.
      destruct (is_space c); cbn [app]; [rewrite IH1 | rewrite IH0]; reflexivity. }
    split; [exact H0|].
    intros prev. cbn [count_class]. destruct (is_space c) eqn:Ec.
    + cbn [sub_go collapse_go]. rewrite Ec. apply IH1.
    + rewrite H0. cbn [collapse_go]. rewrite Ec. reflexivity.
Qed.

Lemma single_spaced_collapse : forall s b, single_spaced b (collapse_go b s) = true.
Proof.
  induction s as [|c t IH]; intros b; simpl; auto.
  destruct (is_space c) eqn:Ec.
  - destruct b; [apply IH|]. cbn [single_spaced]. rewrite (IH true). reflexivity.
  - cbn [single_spaced]. rewrite Ec. apply IH.
Qed.

Lemma collapse_single_spaced : forall s b, single_spaced b s = true -> collapse_go b s = s.
Proof.
  induction s as [|c t IH]; intros b H; simpl in *; auto.
  destruct (is_space c) eqn:Ec.
  - apply andb_true_iff in H. destruct H as [H Ht]. apply andb_true_iff in H.
    destruct H as [Hb Hc]. destruct b; [discriminate|].
    apply Ascii.eqb_eq in Hc. subst c. rewrite IH; auto.
  - rewrite IH; auto.
Qed.

Lemma single_spaced_prefix : forall p q b, single_spaced b (p ++ q) = true -> single_spaced b p = true.
Proof.
  induction p as [|c p IH]; intros q b H; simpl in *; auto.
  destruct (is_space c).
  - apply andb_true_iff in H. destruct H as [H1 H2]. rewrite H1. simpl. eapply IH; eauto.
  - eapply IH; eauto.
Qed.

Lemma single_spaced_lstrip : forall s, single_spaced false s = true -> single_spaced false (lstrip s) = true.
Proof.
  intros [|c t] H; simpl in *; auto. destruct (is_space c) eqn:Ec.
  - apply andb_true_iff in H. destruct H as [_ H].
    destruct t as [|d t']; simpl in *; auto. destruct (is_space d) eqn:Ed; [discriminate|].
    simpl; try rewrite Ed; exact H.
  - cbn [single_spaced]. rewrite Ec. exact H.
Qed.

Lemma single_spaced_strip : forall s, single_spaced false s = true -> single_spaced false (strip s) = true.
Proof.
  intros s H. unfold strip. apply single_spaced_lstrip in H.
  destruct (rstrip_split (lstrip s)) as [sp [E _]].
  rewrite E in H. eapply single_spaced_prefix; eauto.
Qed.

Lemma lstrip_length : forall s, length (lstrip s) <= length s.
Proof. induction s as [|c t IH]; simpl; auto. destruct (is_space c); simpl; lia. Qed.

Lemma lstrip_idem : forall s, lstrip (lstrip s) = lstrip s.
Proof.
  induction s as [|c t IH]; simpl; auto. destruct (is_space c) eqn:Ec; auto.
  simpl. rewrite Ec. reflexivity.
Qed.

Lemma lstrip_fixed : forall s, lstrip s = s -> forall p q, s = p ++ q -> lstrip p = p.
Proof.
  intros [|c t] H [|d p] q E; simpl in *; auto; try discriminate.
  injection E as Ecd Et. subst d. destruct (is_space c) eqn:Ec; auto.
  pose proof (lstrip_length t) as L. rewrite H in L. simpl in L. lia.
Qed.

Lemma strip_idem : forall s, strip (strip s) = strip s.
Proof.
  intros s. unfold strip.
  destruct (rstrip_split (lstrip s)) as [sp [E _]].
  rewrite (lstrip_fixed (lstrip s) (lstrip_idem s) (rstrip (lstrip s)) sp E).
  unfold rstrip. rewrite rev_involutive, lstrip_idem. reflexivity.
Qed.

Lemma Forall_lower : forall s, Forall (fun c => is_upper c = false) (lower s).
Proof. intros s. apply Forall_map, Forall_forall. intros c _. apply lower_char_not_upper. Qed.


(** ** Words through the normaliser's passes *)

Lemma space_not_word : forall c, is_space c = true -> is_word c = false.
Proof.
  intros c H. unfold is_space in H. unfold is_word, is_lower, is_upper, is_digit.
  apply orb_true_iff in H.
  destruct H as [H|H]; apply andb_true_iff in H; destruct H as [H1 H2];
    apply Nat.leb_le in H1; apply Nat.leb_le in H2;
    rewrite (proj2 (Nat.leb_gt 97 (code c))), (proj2 (Nat.leb_gt 65 (code c))),
      (proj2 (Nat.leb_gt 48 (code c))), (proj2 (Nat.eqb_neq (code c) 95)) by lia;
    reflexivity.
Qed.

Lemma digit_word : forall c, is_digit c = true -> is_word c = true.
Proof. intros c H. unfold is_word. rewrite H, orb_true_r. reflexivity. Qed.

Lemma words_from_sep : forall m r cur, word_after r = false ->
  words_from cur (m ++ r) = words_from cur m ++ words_from [] r.
Proof.
  induction m as [|c m IH]; intros r cur Hr; simpl.
  - destruct r as [|d r]; simpl in *.
    + symmetry; apply app_nil_r.
    + rewrite Hr. reflexivity.
  - destruct (is_word c).
    + apply IH; exact Hr.
    + rewrite IH by exact Hr. apply app_assoc.
Qed.

Lemma words_from_nonword : forall sp, Forall (fun c => is_word c = false) sp -> words_from [] sp = [].
Proof.
  induction sp as [|c sp IH]; intros F; simpl; auto.
  inversion F; subst. rewrite H1. simpl. apply IH; auto.
Qed.

Lemma spaces_nonword : forall sp, Forall (fun c => is_space c = true) sp ->
  Forall (fun c => is_word c = false) sp.
Proof. intros sp F. eapply Forall_impl; [|exact F]. intros c; apply space_not_word. Qed.

Lemma words_strip : forall s, words (strip s) = words s.
Proof.
  intros s. unfold words, strip.
  destruct (lstrip_split s) as [sp1 [E1 F1]].
  destruct (rstrip_split (lstrip s)) as [sp2 [E2 F2]].
  apply spaces_nonword in F1. apply spaces_nonword in F2.
  transitivity (words_from [] (lstrip s)).
  - rewrite E2 at 2. destruct sp2 as [|d sp2].
    + rewrite app_nil_r. reflexivity.
    + rewrite words_from_sep by (inversion F2; simpl; assumption).
      rewrite (words_from_nonword (d :: sp2) F2). symmetry; apply app_nil_r.
  - rewrite E1 at 2. clear E1. induction sp1 as [|c sp1 IH]; [reflexivity|].
    inversion F1; subst. simpl. rewrite H1. apply IH; auto.
Qed.

Lemma words_collapse : forall s,
  (forall cur, words_from cur (collapse_go false s) = words_from cur s) /\
  words_from [] (collapse_go true s) = words_from [] s.
Proof.
  induction s as [|c t [IH0 IH1]]; [split; reflexivity|].
  assert (H0 : forall cur, words_from cur (collapse_go false (c :: t)) = words_from cur (c :: t)).
  { intros cur. cbn [collapse_go]. destruct (is_space c) eqn:Es.
    - cbn [words_from]. rewrite (space_not_word c Es), IH1. reflexivity.
    - cbn [words_from]. destruct (is_word c); rewrite ?IH0; reflexivity. }
  split; [exact H0|].
  cbn [collapse_go]. destruct (is_space c) eqn:Es.
  - rewrite IH1. cbn [words_from]. rewrite (space_not_word c Es). reflexivity.
  - specialize (H0 []). cbn [collapse_go] in H0. rewrite Es in H0. exact H0.
Qed.

Lemma sub_go_skip : forall ps repl k prev s, exists prev',
  sub_go ps repl k prev s = sub_go ps repl 0 prev' (skipn k s).
Proof.
  intros ps repl k prev s; revert k prev.
  induction s as [|c t IH]; intros k prev.
  - exists prev. destruct k; reflexivity.
  - destruct k as [|k]; [exists prev; reflexivity|].
    cbn [sub_go skipn]. apply IH.
Qed.

Section SubWords.

(** A pattern whose matches start at the beginning of a word and end at the
    end of one. *)
Variable P : list piece.
Hypothesis aligned_start : forall prev c t n,
  match_len P prev (c :: t) = Some (S n) -> word_before prev = false.
Hypothesis aligned_end : forall prev c t n,
  match_len P prev (c :: t) = Some (S n) -> word_after (skipn n t) = false.

Lemma sub_words_incl_gen : forall N s, length s < N -> forall prev cur,
  (word_before prev = false -> cur = []) ->
  incl (words_from cur (sub_go P [] 0 prev s)) (words_from cur s).
Proof.
  induction N as [|N IH]; intros s Hl prev cur Hc; [lia|].
  destruct s as [|c t]; [apply incl_refl|].
  cbn [sub_go length] in *.
  assert (Hcopy : incl (words_from cur (c :: sub_go P [] 0 (Some c) t)) (words_from cur (c :: t))).
  { cbn [words_from]. destruct (is_word c) eqn:Ew.
    - apply IH; [lia|]. simpl; rewrite Ew; discriminate.
    - apply incl_app_app; [apply incl_refl|]. apply IH; [lia|]. auto. }
  destruct (match_len P prev (c :: t)) as [[|n]|] eqn:Em; try exact Hcopy.
  rewrite (Hc (aligned_start _ _ _ _ Em)) in *.
  destruct (sub_go_skip P [] n (Some c) t) as [prev' E]. rewrite E. cbn [app].
  replace (words_from [] (c :: t)) with (words_from [] (firstn (S n) (c :: t) ++ skipn n t))
    by (change (skipn n t) with (skipn (S n) (c :: t)); rewrite firstn_skipn; reflexivity).
  rewrite (words_from_sep (firstn (S n) (c :: t)) (skipn n t)) by exact (aligned_end _ _ _ _ Em).
  apply incl_appr. apply IH; [rewrite length_skipn; lia|]. auto.
Qed.

Lemma sub_words_incl : forall s, incl (words (sub P [] s)) (words s).
Proof.
  intros s. apply (sub_words_incl_gen (S (length s))); [lia|]. auto.
Qed.

(** The words the pattern matches, whenever they stand at a word start. *)
Variable W : str -> bool.
Hypothesis complete : forall prev c t,
  word_before prev = false -> is_word c = true -> W (word_prefix (c :: t)) = true ->
  exists n, match_len P prev (c :: t) = Some (S n).

Lemma sub_words_clean_gen : forall N s, length s < N -> forall prev cur,
  (word_before prev = false -> cur = []) ->
  (cur <> [] -> W (cur ++ word_prefix s) = false) ->
  (cur = [] -> word_before prev = true -> word_after s = false) ->
  Forall (fun w => W w = false) (words_from cur (sub_go P [] 0 prev s)).
Proof.
  induction N as [|N IH]; intros s Hl prev cur H1 H2 H3; [lia|].
  destruct s as [|c t].
  - simpl. destruct cur as [|d cur]; simpl; [constructor|].
    constructor; [|constructor]. rewrite <- (app_nil_r (d :: cur)). apply H2; discriminate.
  - cbn [sub_go length] in *.
    assert (Hcopy : match_len P prev (c :: t) = None \/ match_len P prev (c :: t) = Some 0 ->
      Forall (fun w => W w = false) (words_from cur (c :: sub_go P [] 0 (Some c) t))).
    { intros Hno. cbn [words_from]. destruct (is_word c) eqn:Ew.
      - apply IH; [lia| | |intros C; destruct cur; discriminate].
        + simpl; rewrite Ew; discriminate.
        + intros _. rewrite <- app_assoc. cbn [app].
          destruct cur as [|d cur].
          * cbn [app]. destruct (W (c :: word_prefix t)) eqn:EW; [|reflexivity].
            exfalso. destruct (word_before prev) eqn:Eb.
            { specialize (H3 eq_refl eq_refl). simpl in H3. congruence. }
            assert (Hp : word_prefix (c :: t) = c :: word_prefix t) by (simpl; rewrite Ew; reflexivity).
            rewrite <- Hp in EW. destruct (complete prev c t Eb Ew EW) as [n En].
            destruct Hno as [Hno|Hno]; congruence.
          * specialize (H2 ltac:(discriminate)). simpl in H2. rewrite Ew in H2.
            simpl. exact H2.
      - apply Forall_app. split.
        + destruct cur as [|d cur]; simpl; [constructor|].
          constructor; [|constructor]. specialize (H2 ltac:(discriminate)).
          simpl in H2. rewrite Ew, app_nil_r in H2. exact H2.
        + apply IH; [lia|auto|intros C; congruence|].
          simpl; rewrite Ew; discriminate. }
    destruct (match_len P prev (c :: t)) as [[|n]|] eqn:Em; try (apply Hcopy; auto).
    rewrite (H1 (aligned_start _ _ _ _ Em)) in *.
    destruct (sub_go_skip P [] n (Some c) t) as [prev' E]. rewrite E.
    apply IH; [rewrite length_skipn; lia|auto|intros C; congruence|].
    intros _ _. exact (aligned_end _ _ _ _ Em).
Qed.

Lemma sub_words_clean : forall s, Forall (fun w => W w = false) (words (sub P [] s)).
Proof.
  intros s. apply (sub_words_clean_gen (S (length s))); [lia|auto|intros C; congruence|].
  discriminate.
Qed.

End SubWords.

(** ** Patterns of the form [\b ... \b] *)

Lemma first_some_in : forall (A B : Type) (f : A -> option B) l y,
  first_some f l = Some y -> exists x, In x l /\ f x = Some y.
Proof.
  induction l as [|x l IH]; intros y H; simpl in H; [discriminate|].
  destruct (f x) eqn:E.
  - injection H as <-. exists x; simpl; auto.
  - destruct (IH y H) as [z [Hz Ez]]. exists z; simpl; auto.
Qed.

Lemma first_some_some : forall (A B : Type) (f : A -> option B) l x y,
  In x l -> f x = Some y -> exists z, first_some f l = Some z.
Proof.
  induction l as [|x0 l IH]; intros x y Hin Hf; simpl in *; [contradiction|].
  destruct (f x0) eqn:E; [eauto|].
  destruct Hin as [<-|Hin]; [congruence|eauto].
Qed.

Lemma advance_at : forall k p s, 1 <= k <= length s ->
  advance k (p, s) = (Some (nth (k - 1) s zero), skipn k s).
Proof.
  induction k as [|k IH]; intros p s Hk; [lia|].
  destruct s as [|c t]; simpl in Hk; [lia|].
  destruct k as [|k]; [reflexivity|].
  change (advance (S (S k)) (p, c :: t)) with (advance (S k) (Some c, t)).
  rewrite IH by (simpl; lia).
  replace (S k - 1) with k by lia. replace (S (S k) - 1) with (S k) by lia. reflexivity.
Qed.

Lemma match_pieces_bound : forall ps prev s,
  match_pieces (PAtom ABound :: ps) (@pair (option ascii) str prev s) =
  if xorb (word_before prev) (word_after s) then match_pieces ps (prev, s) else None.
Proof.
  intros ps prev s. cbn [match_pieces ends_atom].
  destruct (xorb _ _); cbn [first_some]; [|reflexivity].
  destruct (match_pieces ps _); reflexivity.
Qed.

Lemma prefixb_app : forall l s, prefixb l s = true -> exists r, s = l ++ r.
Proof.
  induction l as [|c l IH]; intros s H; [exists s; reflexivity|].
  destruct s as [|d s]; simpl in H; [discriminate|].
  apply andb_true_iff in H. destruct H as [H1 H2]. apply Ascii.eqb_eq in H1. subst d.
  destruct (IH s H2) as [r ->]. exists r; reflexivity.
Qed.

Lemma prefixb_word_prefix : forall s, prefixb (word_prefix s) s = true.
Proof.
  induction s as [|c t IH]; [reflexivity|]. simpl.
  destruct (is_word c); [|reflexivity]. simpl. rewrite Ascii.eqb_refl. exact IH.
Qed.

Lemma count_class_le : forall p s, count_class p s <= length s.
Proof. intros p; induction s as [|c s IH]; simpl; [lia|]. destruct (p c); simpl; lia. Qed.

Lemma count_class_nth : forall p s i, i < count_class p s -> p (nth i s zero) = true.
Proof.
  intros p; induction s as [|c s IH]; intros i H; simpl in *; [lia|].
  destruct (p c) eqn:E; simpl in H; [|lia].
  destruct i; [exact E|]. apply IH; lia.
Qed.

Lemma count_class_app : forall p w r, forallb p w = true ->
  (match r with d :: _ => p d = false | [] => True end) ->
  count_class p (w ++ r) = length w.
Proof.
  intros p; induction w as [|c w IH]; intros r Hw Hr; simpl in *.
  - destruct r as [|d r]; [reflexivity|]. simpl. rewrite Hr. reflexivity.
  - apply andb_true_iff in Hw. destruct Hw as [H1 H2]. rewrite H1, IH; auto.
Qed.

Lemma word_prefix_split : forall s, s = word_prefix s ++ skipn (length (word_prefix s)) s /\
  word_after (skipn (length (word_prefix s)) s) = false /\
  forallb is_word (word_prefix s) = true.
Proof.
  induction s as [|c t [E [H F]]]; [repeat split|].
  simpl. destruct (is_word c) eqn:Ec; simpl.
  - rewrite Ec. split; [f_equal; exact E|auto].
  - rewrite Ec. auto.
Qed.

Lemma word_prefix_cons : forall c t, is_word c = true -> word_prefix (c :: t) = c :: word_prefix t.
Proof. intros c t H. simpl. rewrite H. reflexivity. Qed.

Section BWord.

(** An atom whose every way of matching consumes at least one character,
    the first and the last of them word characters. *)
Variable a : atom.
Hypothesis word_atom : forall p s st, In st (ends_atom a (p, s)) ->
  exists k, 1 <= k <= length s /\ st = advance k (p, s) /\
    is_word (nth 0 s zero) = true /\ is_word (nth (k - 1) s zero) = true.

Lemma bword_match : forall prev s n,
  match_len [PAtom ABound; PAtom a; PAtom ABound] prev s = Some n ->
  1 <= n /\ word_before prev = false /\ word_after (skipn n s) = false.
Proof.
  intros prev s n H. unfold match_len in H. rewrite match_pieces_bound in H.
  destruct (xorb (word_before prev) (word_after s)) eqn:Ex; [|discriminate].
  change (match_pieces [PAtom a; PAtom ABound] (prev, s)) with
    (first_some (match_pieces [PAtom ABound]) (ends_atom a (prev, s))) in H.
  destruct (first_some _ _) as [[p' rest]|] eqn:Ef; [|discriminate].
  injection H as <-.
  destruct (first_some_in _ _ _ _ _ Ef) as [st [Hin Hst]].
  destruct (word_atom _ _ _ Hin) as [k [Hk [-> [Hw0 Hwk]]]].
  rewrite advance_at in Hst by exact Hk.
  rewrite match_pieces_bound in Hst. cbn [word_before] in Hst. rewrite Hwk in Hst.
  destruct (word_after (skipn k s)) eqn:Ea; [discriminate|].
  cbn [xorb match_pieces] in Hst. injection Hst as <- <-.
  rewrite length_skipn.
  destruct s as [|c t]; simpl in Hk; [lia|]. simpl in Hw0, Ex. rewrite Hw0 in Ex.
  destruct (word_before prev); [discriminate|].
  cbn [length] in *. replace (S (length t) - (S (length t) - k)) with k by lia.
  repeat split; auto; lia.
Qed.

Lemma bword_complete : forall prev s st,
  word_before prev = false -> word_after s = true -> In st (ends_atom a (prev, s)) ->
  word_before (fst st) = true -> word_after (snd st) = false ->
  exists n, match_len [PAtom ABound; PAtom a; PAtom ABound] prev s = Some (S n).
Proof.
  intros prev s [p' rest] Hb Ha Hin Hp Hr. simpl in Hp, Hr.
  unfold match_len.
  destruct (match_pieces [PAtom ABound; PAtom a; PAtom ABound] (prev, s)) as [[p'' rest']|] eqn:E.
  - assert (Hn : match_len [PAtom ABound; PAtom a; PAtom ABound] prev s
                 = Some (length s - length rest')) by (unfold match_len; rewrite E; reflexivity).
    destruct (bword_match _ _ _ Hn) as [H1 _].
    exists (length s - length rest' - 1). f_equal. lia.
  - exfalso. rewrite match_pieces_bound, Hb, Ha in E. cbn [xorb] in E.
    change (match_pieces [PAtom a; PAtom ABound] (prev, s)) with
      (first_some (match_pieces [PAtom ABound]) (ends_atom a (prev, s))) in E.
    assert (Hm : match_pieces [PAtom ABound] (p', rest) = Some (p', rest)).
    { rewrite match_pieces_bound, Hp, Hr. reflexivity. }
    destruct (first_some_some _ _ _ _ _ _ Hin Hm) as [z Ez]. congruence.
Qed.

End BWord.

Lemma alt_word_atom : forall lits,
  Forall (fun l => 1 <= length l /\ is_word (nth 0 l zero) = true /\
                   is_word (nth (length l - 1) l zero) = true) lits ->
  forall p s st, In st (ends_atom (AAlt lits) (p, s)) ->
  exists k, 1 <= k <= length s /\ st = advance k (p, s) /\
    is_word (nth 0 s zero) = true /\ is_word (nth (k - 1) s zero) = true.
Proof.
  intros lits F p s st Hin. cbn [ends_atom] in Hin.
  apply in_flat_map in Hin. destruct Hin as [l [Hl Hst]].
  destruct (prefixb l s) eqn:Ep; [|contradiction].
  destruct Hst as [<-|[]].
  destruct (prefixb_app _ _ Ep) as [r ->].
  rewrite Forall_forall in F. destruct (F l Hl) as [H1 [H2 H3]].
  exists (length l). rewrite length_app.
  rewrite !app_nth1 by lia. repeat split; auto; lia.
Qed.

Lemma class_word_atom : forall p lo, 1 <= lo -> (forall c, p c = true -> is_word c = true) ->
  forall q s st, In st (ends_atom (AClass p lo None true) (q, s)) ->
  exists k, 1 <= k <= length s /\ st = advance k (q, s) /\
    is_word (nth 0 s zero) = true /\ is_word (nth (k - 1) s zero) = true.
Proof.
  intros p lo Hlo Hp q s st Hin. cbn [ends_atom] in Hin.
  destruct (count_class p s <? lo) eqn:E; [contradiction|].
  apply Nat.ltb_ge in E.
  apply in_map_iff in Hin. destruct Hin as [k [<- Hk]].
  apply in_rev, in_seq in Hk.
  pose proof (count_class_le p s).
  exists k. repeat split; try lia; apply Hp, count_class_nth; lia.
Qed.

Lemma prefix_state : forall prev c t, is_word c = true ->
  let w := word_prefix (c :: t) in
  let st := advance (length w) (prev, c :: t) in
  word_before (fst st) = true /\ word_after (snd st) = false /\
  (exists r, c :: t = w ++ r /\ word_after r = false) /\ 1 <= length w /\ forallb is_word w = true.
Proof.
  intros prev c t Hc w st.
  destruct (word_prefix_split (c :: t)) as [E [Ha Hf]]. fold w in E, Ha, Hf.
  assert (Hw : 1 <= length w) by (unfold w; rewrite word_prefix_cons by exact Hc; simpl; lia).
  assert (Hle : length w <= length (c :: t)) by (rewrite E at 1; rewrite length_app; lia).
  unfold st. rewrite advance_at by lia. cbn [fst snd word_before].
  repeat split; auto.
  - rewrite E, app_nth1 by lia. rewrite forallb_forall in Hf. apply Hf, nth_In. lia.
  - exists (skipn (length w) (c :: t)). auto.
Qed.

Lemma alt_complete : forall lits,
  Forall (fun l => 1 <= length l /\ is_word (nth 0 l zero) = true /\
                   is_word (nth (length l - 1) l zero) = true) lits ->
  forall prev c t, word_before prev = false -> is_word c = true ->
  In (word_prefix (c :: t)) lits ->
  exists n, match_len [PAtom ABound; PAtom (AAlt lits); PAtom ABound] prev (c :: t) = Some (S n).
Proof.
  intros lits F prev c t Hb Hc Hin.
  destruct (prefix_state prev c t Hc) as [H1 [H2 [[r [E Hr]] _]]].
  eapply bword_complete; [apply alt_word_atom; exact F|exact Hb|simpl; exact Hc| |exact H1|exact H2].
  cbn [ends_atom]. apply in_flat_map. exists (word_prefix (c :: t)). split; [exact Hin|].
  rewrite prefixb_word_prefix. left. reflexivity.
Qed.

Lemma digits_complete : forall prev c t, word_before prev = false -> is_word c = true ->
  long_number (word_prefix (c :: t)) = true ->
  exists n, match_len LONGNUM_RE prev (c :: t) = Some (S n).
Proof.
  intros prev c t Hb Hc Hl.
  destruct (prefix_state prev c t Hc) as [H1 [H2 [[r [E Hr]] [Hw _]]]].
  unfold long_number in Hl. apply andb_true_iff in Hl. destruct Hl as [Hd Hlen].
  apply Nat.leb_le in Hlen.
  eapply bword_complete;
    [apply class_word_atom; [lia|exact digit_word]|exact Hb|simpl; exact Hc| |exact H1|exact H2].
  set (w := word_prefix (c :: t)) in *. clearbody w.
  cbn [ends_atom]. rewrite E.
  rewrite count_class_app; [|exact Hd|].
  2:{ destruct r as [|d r]; [exact I|]. simpl in Hr.
      destruct (is_digit d) eqn:Ed; [rewrite digit_word in Hr by exact Ed; discriminate|reflexivity]. }
  destruct (length w <? 10) eqn:El; [apply Nat.ltb_lt in El; lia|].
  apply in_map_iff. exists (length w). split; [reflexivity|].
  apply in_rev. rewrite rev_involutive. apply in_seq. lia.
Qed.

Lemma str_eqb_true : forall a b, str_eqb a b = true -> a = b.
Proof. intros a b; unfold str_eqb. destruct (list_eq_dec ascii_dec a b); congruence. Qed.

Lemma stop_lits_ok :
  Forall (fun l => 1 <= length l /\ is_word (nth 0 l zero) = true /\
                   is_word (nth (length l - 1) l zero) = true) STOPWORDS.
Proof. repeat constructor. Qed.

Lemma country_lits_ok :
  Forall (fun l => 1 <= length l /\ is_word (nth 0 l zero) = true /\
                   is_word (nth (length l - 1) l zero) = true)
         (map s2l ["united states"; "usa"]%string).
Proof. repeat constructor. Qed.

Lemma bword_aligned_start : forall a, (forall p s st, In st (ends_atom a (p, s)) ->
    exists k, 1 <= k <= length s /\ st = advance k (p, s) /\
      is_word (nth 0 s zero) = true /\ is_word (nth (k - 1) s zero) = true) ->
  forall prev c t n,
  match_len [PAtom ABound; PAtom a; PAtom ABound] prev (c :: t) = Some (S n) ->
  word_before prev = false.
Proof. intros a Ha prev c t n H. apply (bword_match a Ha) in H. tauto. Qed.

Lemma bword_aligned_end : forall a, (forall p s st, In st (ends_atom a (p, s)) ->
    exists k, 1 <= k <= length s /\ st = advance k (p, s) /\
      is_word (nth 0 s zero) = true /\ is_word (nth (k - 1) s zero) = true) ->
  forall prev c t n,
  match_len [PAtom ABound; PAtom a; PAtom ABound] prev (c :: t) = Some (S n) ->
  word_after (skipn n t) = false.
Proof. intros a Ha prev c t n H. apply (bword_match a Ha) in H. apply H. Qed.

Lemma stop_complete : forall prev c t, word_before prev = false -> is_word c = true ->
  stop_word (word_prefix (c :: t)) = true ->
  exists n, match_len STOPWORD_RE prev (c :: t) = Some (S n).
Proof.
  intros prev c t Hb Hc H. apply alt_complete; auto using stop_lits_ok.
  unfold stop_word in H. apply existsb_exists in H. destruct H as [x [Hx E]].
  apply str_eqb_true in E. rewrite E. exact Hx.
Qed.

Lemma usa_complete : forall prev c t, word_before prev = false -> is_word c = true ->
  usa_word (word_prefix (c :: t)) = true ->
  exists n, match_len COUNTRY_RE prev (c :: t) = Some (S n).
Proof.
  intros prev c t Hb Hc H. apply alt_complete; auto using country_lits_ok.
  unfold usa_word in H. apply str_eqb_true in H. rewrite H. simpl; auto.
Qed.


Lemma clean_ocr_words : forall text,
  Forall (fun w => removed_word w = false) (words (clean_ocr text)).
Proof.
  intros text. unfold clean_ocr.
  set (x1 := sub WEIGHT_RE [] (lower text)).
  set (x2 := sub LONGNUM_RE [] x1).
  set (x3 := sub COUNTRY_RE [] x2).
  set (x4 := sub STOPWORD_RE [] x3).
  rewrite words_strip. unfold words at 1, sub at 1.
  rewrite (proj1 (sub_spaces_collapse x4)), (proj1 (words_collapse x4)).
  pose proof (alt_word_atom STOPWORDS stop_lits_ok) as Astop.
  pose proof (alt_word_atom _ country_lits_ok) as Acountry.
  pose proof (class_word_atom is_digit 10 ltac:(lia) digit_word) as Adigits.
  pose proof (sub_words_clean STOPWORD_RE (bword_aligned_start _ Astop) (bword_aligned_end _ Astop)
                stop_word stop_complete x3) as Cstop.
  pose proof (sub_words_clean COUNTRY_RE (bword_aligned_start _ Acountry)
                (bword_aligned_end _ Acountry) usa_word usa_complete x2) as Cusa.
  pose proof (sub_words_clean LONGNUM_RE (bword_aligned_start _ Adigits)
                (bword_aligned_end _ Adigits) long_number digits_complete x1) as Clong.
  pose proof (sub_words_incl STOPWORD_RE (bword_aligned_start _ Astop)
                (bword_aligned_end _ Astop) x3) as I4.
  pose proof (sub_words_incl COUNTRY_RE (bword_aligned_start _ Acountry)
                (bword_aligned_end _ Acountry) x2) as I3.
  fold x4 in Cstop, I4. fold x3 in Cusa, I3. fold x2 in Clong.
  rewrite Forall_forall in *. intros w Hw. change (words_from [] x4) with (words x4) in Hw.
  unfold removed_word. rewrite (Cstop w Hw), (Cusa w (I4 w Hw)), (Clong w (I3 w (I4 w Hw))).
  reflexivity.
Qed.

(** C7: [clean_ocr] is total; its output is lower-case ([str.lower] leaves
    it unchanged), has its whitespace collapsed ([re.sub(r"\s+", " ")]
    leaves it unchanged) and is trimmed ([str.strip] leaves it unchanged);
    and none of its words (maximal runs of [\w] characters) is a stopword,
    "usa", or a run of ten or more digits. *)
Theorem clean_ocr_normalised : forall text,
  lower (clean_ocr text) = clean_ocr text /\
  sub SPACES_RE [" "%char] (clean_ocr text) = clean_ocr text /\
  strip (clean_ocr text) = clean_ocr text /\
  Forall (fun w => removed_word w = false) (words (clean_ocr text)).
Proof.
  intros text. split; [|split; [|split]].
  - unfold clean_ocr. apply lower_id, Forall_strip. unfold sub. apply sub_go_forall.
    + repeat apply sub_go_forall; auto using Forall_lower.
    + repeat constructor.
  - unfold clean_ocr. unfold sub at 1. rewrite (proj1 (sub_spaces_collapse _)).
    apply collapse_single_spaced, single_spaced_strip.
    unfold sub. rewrite (proj1 (sub_spaces_collapse _)). apply single_spaced_collapse.
  - unfold clean_ocr. apply strip_idem.
  - apply clean_ocr_words.
Qed.

(** C7 counterexample: the removals are applied one after the other, each to
    whole words, before whitespace is collapsed, so a removed token can be
    re-formed: "united  states" (two spaces) and "5 ups lbs" come out as
    "united states" and "5 lbs", which the country and weight patterns
    match again. *)
Lemma clean_ocr_tokens_reappear :
  clean_ocr (s2l "united  states") = s2l "united states" /\
  search COUNTRY_RE (clean_ocr (s2l "united  states")) = Some (s2l "united states") /\
  clean_ocr (s2l "5 ups lbs") = s2l "5 lbs" /\
  search WEIGHT_RE (clean_ocr (s2l "5 ups lbs")) = Some (s2l "5 lbs").
Proof. vm_compute. repeat split. Qed.

(** * Further properties of the program *)

(** ** What a pattern match consumes *)

Lemma firstn_count_class : forall p k s, k <= count_class p s ->
  forallb p (firstn k s) = true.
Proof.
  intros p; induction k as [|k IH]; intros s H; [reflexivity|].
  destruct s as [|c s]; simpl in H; [lia|].
  destruct (p c) eqn:E; [|lia]. simpl. rewrite E, IH by lia. reflexivity.
Qed.

Lemma forallb_weaken : forall (p q : ascii -> bool) s,
  (forall c, p c = true -> q c = true) -> forallb p s = true -> forallb q s = true.
Proof.
  intros p q s H Hs. apply forallb_forall. intros c Hc.
  apply H. exact (proj1 (forallb_forall p s) Hs c Hc).
Qed.

Lemma skipn_length_app : forall (l r : str), skipn (length l) (l ++ r) = r.
Proof. induction l as [|c l IH]; intros r; simpl; auto. Qed.

Lemma ends_atom_consumes : forall P a prev s st, consumes P a ->
  In st (ends_atom a (prev, s)) -> exists m, s = m ++ snd st /\ forallb P m = true.
Proof.
  intros P [p lo hi greedy|lits|] prev s st Ha Hin; cbn [ends_atom] in Hin.
  - assert (Hn : forall n, n <= count_class p s ->
      In st (if n <? lo then [] else
             map (fun k => advance k (prev, s))
               (if greedy then rev (seq lo (S n - lo)) else seq lo (S n - lo))) ->
      exists m, s = m ++ snd st /\ forallb P m = true).
    { intros n Hle Hin'. destruct (n <? lo); [contradiction|].
      apply in_map_iff in Hin'. destruct Hin' as [k [<- Hk]].
      assert (Hk' : In k (seq lo (S n - lo))).
      { destruct greedy; auto. apply in_rev in Hk. exact Hk. }
      apply in_seq in Hk'.
      exists (firstn k s). rewrite advance_snd. split; [symmetry; apply firstn_skipn|].
      apply (forallb_weaken p); auto. apply firstn_count_class. lia. }
    destruct hi as [h|]; (eapply Hn; [|exact Hin]); lia.
  - apply in_flat_map in Hin. destruct Hin as [l [Hl Hin]].
    destruct (prefixb l s) eqn:E; [|contradiction]. destruct Hin as [<-|[]].
    destruct (prefixb_app _ _ E) as [r ->]. exists l.
    rewrite advance_snd, skipn_length_app. split; [reflexivity|].
    exact (proj1 (forallb_forall _ lits) Ha l Hl).
  - destruct (xorb _ _); [|contradiction]. destruct Hin as [<-|[]].
    exists []. split; reflexivity.
Qed.

Lemma ends_atoms_consumes : forall P g prev s st, Forall (consumes P) g ->
  In st (ends_atoms g (prev, s)) -> exists m, s = m ++ snd st /\ forallb P m = true.
Proof.
  intros P g; induction g as [|a g IH]; intros prev s st Hg Hin; cbn [ends_atoms] in Hin.
  - destruct Hin as [<-|[]]. exists []. split; reflexivity.
  - inversion Hg; subst. apply in_flat_map in Hin. destruct Hin as [[p' s'] [Hx Hin]].
    destruct (ends_atom_consumes P a prev s _ H1 Hx) as [m1 [E1 F1]].
    destruct (IH p' s' st H2 Hin) as [m2 [E2 F2]]. simpl in E1.
    exists (m1 ++ m2). rewrite E1, E2, app_assoc. split; [reflexivity|].
    rewrite forallb_app, F1, F2. reflexivity.
Qed.

Lemma match_pieces_consumes : forall P ps st st', Forall (piece_consumes P) ps ->
  match_pieces ps st = Some st' -> exists m, snd st = m ++ snd st' /\ forallb P m = true.
Proof.
  intros P ps; induction ps as [|[a|g] ps IH]; intros [prev s] st' Hps H;
    cbn [match_pieces] in H.
  - injection H as <-. exists []. split; reflexivity.
  - inversion Hps; subst. apply first_some_in in H. destruct H as [[p' s'] [Hx H]].
    destruct (ends_atom_consumes P a prev s _ H2 Hx) as [m1 [E1 F1]].
    destruct (IH _ st' H3 H) as [m2 [E2 F2]]. simpl in E1, E2 |- *.
    exists (m1 ++ m2). rewrite E1, E2, app_assoc. split; [reflexivity|].
    rewrite forallb_app, F1, F2. reflexivity.
  - inversion Hps; subst. apply first_some_in in H. destruct H as [[p' s'] [Hx H]].
    destruct (IH _ st' H3 H) as [m2 [E2 F2]]. simpl in E2 |- *.
    apply in_app_or in Hx. destruct Hx as [Hx|[Hx|[]]].
    + destruct (ends_atoms_consumes P g prev s _ H2 Hx) as [m1 [E1 F1]]. simpl in E1.
      exists (m1 ++ m2). rewrite E1, E2, app_assoc. split; [reflexivity|].
      rewrite forallb_app, F1, F2. reflexivity.
    + injection Hx as -> ->. exists m2. auto.
Qed.

Lemma forallb_true_all : forall (l : list str), forallb (forallb (fun _ : ascii => true)) l = true.
Proof.
  induction l as [|w l IH]; [reflexivity|]. simpl. rewrite IH, andb_true_r.
  induction w as [|c w IHw]; [reflexivity|]. exact IHw.
Qed.

Lemma all_consume_true : forall ps, Forall (piece_consumes (fun _ => true)) ps.
Proof.
  assert (Ha : forall a, consumes (fun _ => true) a).
  { intros [p lo hi g|lits|]; cbn [consumes]; auto using forallb_true_all. }
  induction ps as [|[a|g] ps IH]; constructor; cbn [piece_consumes]; auto.
  apply Forall_forall. intros; apply Ha.
Qed.

(** The rest of the text after a match is a suffix of the text. *)
Lemma match_pieces_suffix : forall ps st st',
  match_pieces ps st = Some st' -> exists m, snd st = m ++ snd st'.
Proof.
  intros ps st st' H.
  destruct (match_pieces_consumes (fun _ => true) ps st st' (all_consume_true ps) H) as [m [E _]].
  eauto.
Qed.

Lemma firstn_match_text : forall (m r : str), firstn (length (m ++ r) - length r) (m ++ r) = m.
Proof.
  intros m r. rewrite length_app, Nat.add_sub, firstn_app, Nat.sub_diag, firstn_O, app_nil_r.
  apply firstn_all.
Qed.

(** [re.search] reports the text matched at the first position where the
    pattern matches. *)
Lemma search_go_at : forall ps prev s m, search_go ps prev s = Some m ->
  exists p prev' q st', s = p ++ q /\ match_pieces ps (prev', q) = Some st' /\
    q = m ++ snd st'.
Proof.
  intros ps prev s; revert prev; induction s as [|c t IH]; intros prev m H; cbn [search_go] in H;
    unfold match_len in H.
  - destruct (match_pieces ps (prev, [])) as [[p' rest]|] eqn:E; [|discriminate].
    injection H as <-. destruct (match_pieces_suffix _ _ _ E) as [m' Em].
    exists [], prev, [], (p', rest). split; [reflexivity|]. split; [exact E|].
    simpl in Em |- *. destruct m'; [|discriminate]. simpl in Em. rewrite <- Em. reflexivity.
  - destruct (match_pieces ps (prev, c :: t)) as [[p' rest]|] eqn:E.
    + injection H as <-. destruct (match_pieces_suffix _ _ _ E) as [m' Em]. simpl in Em.
      exists [], prev, (c :: t), (p', rest). split; [reflexivity|]. split; [exact E|].
      assert (Ef : firstn (length (c :: t) - length rest) (c :: t) = m')
        by (rewrite Em; apply firstn_match_text).
      change (c :: t = firstn (length (c :: t) - length rest) (c :: t) ++ rest).
      rewrite Ef. exact Em.
    + destruct (IH (Some c) m H) as [p [prev' [q [st' [E1 [E2 E3]]]]]].
      exists (c :: p), prev', q, st'. rewrite E1. auto.
Qed.

Lemma match_pieces_app_prefix : forall ps qs st x,
  match_pieces (ps ++ qs) st = Some x -> exists y, match_pieces ps st = Some y.
Proof.
  induction ps as [|[a|g] ps IH]; intros qs st x H; [eexists; reflexivity| |];
    cbn [match_pieces app] in H |- *;
    apply first_some_in in H; destruct H as [z [Hz H]];
    destruct (IH qs z x H) as [y Hy]; eapply first_some_some; eauto.
Qed.

Lemma search_go_app_prefix : forall ps qs prev s m,
  search_go (ps ++ qs) prev s = Some m -> exists m', search_go ps prev s = Some m'.
Proof.
  intros ps qs prev s; revert prev; induction s as [|c t IH]; intros prev m H;
    cbn [search_go] in H |- *; unfold match_len in H |- *.
  - destruct (match_pieces (ps ++ qs) _) as [x|] eqn:E; [|discriminate].
    destruct (match_pieces_app_prefix _ _ _ _ E) as [[y1 y2] ->]. eauto.
  - destruct (match_pieces (ps ++ qs) _) as [x|] eqn:E.
    + destruct (match_pieces_app_prefix _ _ _ _ E) as [[y1 y2] ->]. eauto.
    + destruct (match_pieces ps _) as [[y1 y2]|]; eauto.
Qed.

Lemma ends_atom_class : forall p lo hi greedy prev s st,
  In st (ends_atom (AClass p lo hi greedy) (prev, s)) ->
  exists k, lo <= k /\ k <= count_class p s /\
    (match hi with Some h => k <= h | None => True end) /\ st = advance k (prev, s).
Proof.
  intros p lo hi greedy prev s st Hin. cbn [ends_atom] in Hin.
  assert (Hn : forall n, n <= count_class p s ->
      (match hi with Some h => n <= h | None => True end) ->
      In st (if n <? lo then [] else
             map (fun k => advance k (prev, s))
               (if greedy then rev (seq lo (S n - lo)) else seq lo (S n - lo))) ->
      exists k, lo <= k /\ k <= count_class p s /\
        (match hi with Some h => k <= h | None => True end) /\ st = advance k (prev, s)).
  { intros n Hle Hh Hin'. destruct (n <? lo); [contradiction|].
    apply in_map_iff in Hin'. destruct Hin' as [k [<- Hk]].
    assert (Hk' : In k (seq lo (S n - lo))).
    { destruct greedy; auto. apply in_rev in Hk. exact Hk. }
    apply in_seq in Hk'. exists k. split; [lia|]. split; [lia|]. split; [|reflexivity].
    destruct hi; auto. lia. }
  destruct hi as [h|]; (eapply Hn; [| |exact Hin]); try exact I; lia.
Qed.

(** The address patterns start with [\d{3,6}\s+]: the match begins with
    three to six digits and a whitespace character. *)
Lemma house_number_match : forall ps prev s st',
  match_pieces (PAtom (AClass is_digit 3 (Some 6) true) ::
                PAtom (AClass is_space 1 None true) :: ps) (prev, s) = Some st' ->
  exists d c w, s = d ++ c :: w ++ snd st' /\ 3 <= length d <= 6 /\
    forallb is_digit d = true /\ is_space c = true.
Proof.
  intros ps prev s st' H. cbn [match_pieces] in H.
  apply first_some_in in H. destruct H as [x [Hx H]].
  apply first_some_in in H. destruct H as [y [Hy H]].
  destruct (match_pieces_suffix _ _ _ H) as [w Ew].
  destruct (ends_atom_class _ _ _ _ _ _ _ Hx) as [k [Hk1 [Hk2 [Hk3 ->]]]].
  pose proof (advance_snd k prev s) as Esx.
  destruct (advance k (prev, s)) as [px sx]. simpl in Esx.
  destruct (ends_atom_class _ _ _ _ _ _ _ Hy) as [j [Hj1 [Hj2 [_ ->]]]].
  rewrite advance_snd in Ew.
  destruct sx as [|c sx']; [simpl in Hj2; lia|].
  simpl in Hj2. destruct (is_space c) eqn:Ec; [|lia].
  destruct j as [|j]; [lia|]. simpl in Ew.
  pose proof (count_class_le is_digit s) as Hle.
  exists (firstn k s), c, (firstn j sx' ++ w). split; [|split; [|split]].
  - rewrite <- (firstn_skipn k s) at 1. rewrite <- Esx. f_equal. f_equal.
    rewrite <- app_assoc, <- Ew. symmetry; apply firstn_skipn.
  - rewrite length_firstn. lia.
  - apply firstn_count_class. lia.
  - exact Ec.
Qed.

Lemma addr_patterns_consume : forall pat, In pat address_patterns ->
  Forall (piece_consumes addr_char) pat.
Proof.
  intros pat Hp. simpl in Hp. destruct Hp as [<-|[<-|[]]];
    unfold ADDR_ZIP_RE, ADDR_NOZIP_RE, ADDR_HEAD; cbn [app];
    repeat constructor; cbn [piece_consumes consumes lit];
    try (vm_compute; reflexivity);
    intros c Hc; unfold addr_char, is_lower_digit_space, is_lower_space in *;
    repeat rewrite orb_true_iff in *; tauto.
Qed.

(** A match of an address pattern: a piece of the searched text, made of
    address characters, starting with the house number. *)
Lemma search_addr_shape : forall pat s m, In pat address_patterns -> search pat s = Some m ->
  (exists p q, s = p ++ m ++ q) /\ forallb addr_char m = true /\
  exists d c w, m = d ++ c :: w /\ 3 <= length d <= 6 /\
    forallb is_digit d = true /\ is_space c = true.
Proof.
  intros pat s m Hp H. unfold search in H.
  destruct (search_go_at _ _ _ _ H) as [p [prev' [q [st' [E1 [E2 E3]]]]]].
  split; [exists p, (snd st'); rewrite E1, E3; reflexivity|].
  destruct (match_pieces_consumes addr_char _ _ _ (addr_patterns_consume pat Hp) E2)
    as [mm [Em Fm]].
  simpl in Em. rewrite E3 in Em. apply app_inv_tail in Em. subst mm.
  split; [exact Fm|].
  assert (Hs : exists ps, match_pieces (PAtom (AClass is_digit 3 (Some 6) true) ::
                 PAtom (AClass is_space 1 None true) :: ps) (prev', q) = Some st').
  { simpl in Hp. destruct Hp as [<-|[<-|[]]].
    - exists (skipn 2 ADDR_ZIP_RE). exact E2.
    - exists (skipn 2 ADDR_NOZIP_RE). exact E2. }
  destruct Hs as [ps Hs]. destruct (house_number_match _ _ _ _ Hs) as [d [c [w [Ed Hd]]]].
  exists d, c, w. split; [|exact Hd].
  rewrite E3, app_comm_cons, app_assoc in Ed. apply app_inv_tail in Ed. exact Ed.
Qed.

Lemma fallback_address_shape : forall text,
  fallback_address text = [] \/
  exists m, fallback_address text = title m /\ (exists p q, lower text = p ++ m ++ q) /\
    forallb addr_char m = true /\
    exists d c w, m = d ++ c :: w /\ 3 <= length d <= 6 /\
      forallb is_digit d = true /\ is_space c = true.
Proof.
  intros text. unfold fallback_address.
  destruct (first_some (fun pat => search pat (lower text)) address_patterns) as [m|] eqn:E;
    [|left; reflexivity].
  right. apply first_some_in in E. destruct E as [pat [Hp E]]. exists m. split; [reflexivity|].
  exact (search_addr_shape pat _ m Hp E).
Qed.

Lemma lower_title : forall b s, lower (title_go b s) = lower s.
Proof.
  intros b s; revert b; induction s as [|c s IH]; intros b; [reflexivity|].
  simpl. f_equal; [destruct b; auto using lower_lower_char, lower_upper_char|apply IH].
Qed.

Lemma title_length : forall b s, length (title_go b s) = length s.
Proof. intros b s; revert b; induction s as [|c s IH]; intros b; simpl; auto. Qed.

Lemma digit_title_char : forall c, is_digit c = true ->
  upper_char c = c /\ (is_lower c || is_upper c) = false.
Proof. intros [[] [] [] [] [] [] [] []] H; vm_compute in H |- *; try discriminate; auto. Qed.

Lemma space_upper_char : forall c, is_space c = true -> upper_char c = c.
Proof. intros [[] [] [] [] [] [] [] []] H; vm_compute in H |- *; try discriminate; auto. Qed.

Lemma addr_title_char : forall c (b : bool), addr_char c = true ->
  (let x := if b then lower_char c else upper_char c in
   is_lower x || is_upper x || is_digit x || is_space x || Ascii.eqb x "-"%char) = true.
Proof.
  intros [[] [] [] [] [] [] [] []] [] H; vm_compute in H |- *; try discriminate; reflexivity.
Qed.

Lemma title_digits : forall d r, forallb is_digit d = true ->
  title_go false (d ++ r) = d ++ title_go false r.
Proof.
  induction d as [|c d IH]; intros r H; [reflexivity|].
  simpl in H. apply andb_true_iff in H. destruct H as [H1 H2].
  destruct (digit_title_char c H1) as [E1 E2].
  simpl. rewrite E1, E2, IH by exact H2. reflexivity.
Qed.

Lemma title_addr_chars : forall b m, forallb addr_char m = true ->
  Forall (fun x => (is_lower x || is_upper x || is_digit x || is_space x
                    || Ascii.eqb x "-"%char) = true) (title_go b m).
Proof.
  intros b m; revert b; induction m as [|c m IH]; intros b H; simpl; [constructor|].
  simpl in H. apply andb_true_iff in H. destruct H as [H1 H2].
  constructor; [exact (addr_title_char c b H1)|apply IH; exact H2].
Qed.

(** X1: the address fallback copies its text from the label: lower-cased,
    the address it returns is a contiguous piece of the lower-cased input
    (only the letter case differs). *)
Theorem fallback_address_infix : forall text,
  exists p q, lower text = p ++ lower (fallback_address text) ++ q.
Proof.
  intros text. destruct (fallback_address_shape text) as [E|[m [E [[p [q Ei]] _]]]].
  - exists (lower text), []. rewrite E. simpl. rewrite app_nil_r. reflexivity.
  - exists p, q. rewrite E. unfold title. rewrite lower_title.
    rewrite (lower_id m); [exact Ei|].
    assert (F : Forall (fun c => is_upper c = false) (lower text)) by apply Forall_lower.
    rewrite Ei in F. apply Forall_app in F. destruct F as [_ F].
    apply Forall_app in F. exact (proj1 F).
Qed.

(** X2: the fallback address consists of letters, digits, whitespace and
    hyphens only: no comma or other punctuation of the label survives. *)
Theorem fallback_address_chars : forall text,
  Forall (fun c => (is_lower c || is_upper c || is_digit c || is_space c
                    || Ascii.eqb c "-"%char) = true) (fallback_address text).
Proof.
  intros text. destruct (fallback_address_shape text) as [E|[m [E [_ [F _]]]]].
  - rewrite E. constructor.
  - rewrite E. apply title_addr_chars. exact F.
Qed.

(** X3: a non-empty fallback address starts with a house number of three to
    six digits followed by a whitespace character. *)
Theorem fallback_address_house_number : forall text,
  fallback_address text = [] \/
  exists d c r, fallback_address text = d ++ c :: r /\ 3 <= length d <= 6 /\
    Forall (fun x => is_digit x = true) d /\ is_space c = true.
Proof.
  intros text. destruct (fallback_address_shape text) as [E|[m [E [_ [_ [d [c [w [Em Hd]]]]]]]]];
    [left; exact E|right].
  destruct Hd as [Hl [Hdig Hc]].
  exists d, c, (title_go (is_lower c || is_upper c) w). split; [|split; [exact Hl|split]].
  - rewrite E, Em. unfold title. rewrite title_digits by exact Hdig.
    simpl. rewrite space_upper_char by exact Hc. reflexivity.
  - apply Forall_forall. intros x Hx. exact (proj1 (forallb_forall _ d) Hdig x Hx).
  - exact Hc.
Qed.

(** X4: the address fallback is empty exactly when the second pattern (the
    one without a ZIP code) has no match in the lower-cased text: every
    match of the first pattern extends a match of the second, which only
    decides which text is returned. *)
Theorem fallback_address_empty_iff : forall text,
  fallback_address text = [] <-> search ADDR_NOZIP_RE (lower text) = None.
Proof.
  intros text.
  assert (Hne : forall pat m, In pat address_patterns -> search pat (lower text) = Some m ->
            title m <> []).
  { intros pat m Hp Hs Ht. destruct (search_addr_shape _ _ _ Hp Hs) as [_ [_ [d [c [w [Em _]]]]]].
    apply (f_equal (@length ascii)) in Ht. unfold title in Ht. rewrite title_length, Em in Ht.
    rewrite length_app in Ht. simpl in Ht. lia. }
  unfold fallback_address. cbn [address_patterns first_some].
  destruct (search ADDR_ZIP_RE (lower text)) as [m1|] eqn:E1.
  - split; [intros H; exfalso; exact (Hne _ _ (or_introl eq_refl) E1 H)|].
    intros H. exfalso. unfold search, ADDR_ZIP_RE in E1.
    destruct (search_go_app_prefix _ _ _ _ _ E1) as [m' E'].
    unfold search, ADDR_NOZIP_RE in H. congruence.
  - destruct (search ADDR_NOZIP_RE (lower text)) as [m2|] eqn:E2; [|split; reflexivity].
    split; [intros H; exfalso; exact (Hne _ _ (or_intror (or_introl eq_refl)) E2 H)|].
    discriminate.
Qed.

(** ** [extract_json] with the [json] module *)

Lemma index_of_skipn : forall c s i, index_of c s = Some i -> exists r, skipn i s = c :: r.
Proof.
  intros c; induction s as [|d s IH]; intros i H; simpl in H; [discriminate|].
  destruct (Ascii.eqb d c) eqn:E.
  - injection H as <-. apply Ascii.eqb_eq in E. subst d. eexists; reflexivity.
  - destruct (index_of c s) as [i'|] eqn:Ei; cbn [option_map] in H; [|discriminate].
    injection H as <-. exact (IH i' eq_refl).
Qed.

Lemma brace_span_open : forall s span, brace_span s = Some span ->
  exists r, span = "{"%char :: r.
Proof.
  intros s span H. unfold brace_span in H.
  destruct (index_of "{"%char s) as [i|] eqn:Ei; [|discriminate].
  destruct (last_index_of "}"%char s) as [j|]; [|discriminate].
  destruct (i <? j); [|discriminate]. injection H as <-.
  destruct (index_of_skipn _ _ _ Ei) as [r Er]. rewrite Er, Nat.add_1_r.
  eexists; reflexivity.
Qed.

Lemma pmembers_obj : forall f s acc v r, Json.pmembers f s acc = Some (v, r) ->
  exists kv, v = JObj kv.
Proof.
  induction f as [|f IH]; intros s acc v r H; [discriminate|].
  cbn [Json.pmembers] in H.
  destruct s as [|c t]; [discriminate|].
  destruct (code c =? 34); [|discriminate].
  destruct (Json.pstring t) as [[k r0]|]; [|discriminate].
  destruct (Json.ws r0) as [|d r1]; [discriminate|].
  destruct (code d =? 58); [|discriminate].
  destruct (Json.pvalue f (Json.ws r1)) as [[v0 r2]|]; [|discriminate].
  destruct (Json.ws r2) as [|e r3]; [discriminate|].
  destruct (code e =? 44); [exact (IH _ _ _ _ H)|].
  destruct (code e =? 125); [|discriminate]. injection H as <- _. eexists; reflexivity.
Qed.

Lemma pvalue_open : forall f r, Json.pvalue (S f) ("{"%char :: r) =
  match Json.ws r with
  | d :: t' => if code d =? 125 then Some (JObj [], t') else Json.pmembers f (Json.ws r) []
  | [] => None
  end.
Proof. reflexivity. Qed.

(** [json.loads] of a text starting with [{] is an object, or fails. *)
Lemma loads_object : forall r v, Json.loads ("{"%char :: r) = Some v -> exists kv, v = JObj kv.
Proof.
  intros r v H. unfold Json.loads in H.
  change (Json.ws ("{"%char :: r)) with ("{"%char :: r) in H.
  change (length ("{"%char :: r)) with (S (length r)) in H.
  rewrite pvalue_open in H.
  destruct (Json.ws r) as [|d t'] eqn:Ew; [discriminate|].
  destruct (code d =? 125).
  - destruct (Json.ws t'); [|discriminate]. injection H as <-. eexists; reflexivity.
  - destruct (Json.pmembers _ _ _) as [[v' r']|] eqn:Ep; [|discriminate].
    destruct (Json.ws r'); [|discriminate]. injection H as <-. exact (pmembers_obj _ _ _ _ _ Ep).
Qed.

(** X5: with the [json] module, [extract_json] always returns a dict: the
    text it parses starts with [{], so [json.loads] either yields an object
    or fails, and a failure gives [{}].  [data.get] never meets a
    non-dict. *)
Theorem extract_json_object : forall resp, exists kv, extract_json Json.loads resp = JObj kv.
Proof.
  intros resp. unfold extract_json. rewrite search_brace.
  destruct (brace_span resp) as [span|] eqn:Es; [|eexists; reflexivity].
  destruct (Json.loads span) as [v|] eqn:El; [|eexists; reflexivity].
  destruct (brace_span_open _ _ Es) as [r ->]. exact (loads_object r v El).
Qed.

(** ** The pipeline's outcomes *)

(** X6: [extract_final] fails exactly when the backend call fails (with the
    backend's error) or when one of the two fields of the parsed response
    is present with a non-string value (an [AttributeError] of
    [.strip()]); in every other case it returns a record. *)
Theorem extract_final_error_cases : forall jl co ocr e,
  extract_final jl co ocr = Err e <->
  co (clean_ocr ocr) = Err e \/
  (e = AttributeError /\ exists resp, co (clean_ocr ocr) = Ok resp /\
     (field_str (extract_json jl resp) (s2l "recipient_name") = None \/
      field_str (extract_json jl resp) (s2l "recipient_address") = None)).
Proof.
  intros jl co ocr e. unfold extract_final.
  destruct (co (clean_ocr ocr)) as [resp|e']; cbv beta iota zeta delta [bind].
  - rewrite !get_stripped_field.
    destruct (field_str (extract_json jl resp) (s2l "recipient_name")) as [n|] eqn:En;
    [destruct (field_str (extract_json jl resp) (s2l "recipient_address")) as [a|] eqn:Ea|];
    cbv beta iota; split.
    + discriminate.
    + intros [H|[_ [resp' [H1 [H2|H2]]]]]; [discriminate| |];
        injection H1 as <-; congruence.
    + intros H; injection H as <-. right. split; [reflexivity|]. exists resp. auto.
    + intros [H|[-> _]]; [discriminate|reflexivity].
    + intros H; injection H as <-. right. split; [reflexivity|]. exists resp. auto.
    + intros [H|[-> _]]; [discriminate|reflexivity].
  - split; [intros H; left; congruence|]. intros [H|[_ [resp' [H1 _]]]]; [congruence|discriminate].
Qed.

(** X7: when the model's response has no [{...}] span, or [json.loads]
    fails on it, the record is computed from the raw OCR text alone: the
    Name Resolver on the OCR text and the address fallback. *)
Theorem extract_final_without_json : forall jl co ocr resp,
  co (clean_ocr ocr) = Ok resp ->
  (brace_span resp = None \/ exists span, brace_span resp = Some span /\ jl span = None) ->
  extract_final jl co ocr =
    Ok {| recipient_name := match_known_name_from_text ocr;
          recipient_address := fallback_address ocr |}.
Proof.
  intros jl co ocr resp Hco Hj.
  assert (E : extract_json jl resp = JObj []).
  { unfold extract_json. rewrite search_brace.
    destruct Hj as [-> | [span [-> ->]]]; reflexivity. }
  unfold extract_final. rewrite Hco. cbv beta iota zeta delta [bind]. rewrite E. reflexivity.
Qed.

Lemma extract_final_without_json_witness :
  brace_span (s2l "no json here") = None /\
  extract_final Json.loads (fun _ => Ok (s2l "no json here")) record1 =
    Ok {| recipient_name := match_known_name_from_text record1;
          recipient_address := fallback_address record1 |}.
Proof.
  split; [vm_compute; reflexivity|].
  apply (extract_final_without_json Json.loads (fun _ => Ok (s2l "no json here")) record1
           (s2l "no json here")); [reflexivity|left; vm_compute; reflexivity].
Defined.

(** X8: the letter case of the OCR text does not matter: two texts equal
    after lower-casing give the same result (the backend sees the same
    cleaned text, and both fallbacks lower-case their input). *)
Theorem extract_final_case_insensitive : forall jl co t1 t2,
  lower t1 = lower t2 -> extract_final jl co t1 = extract_final jl co t2.
Proof.
  intros jl co t1 t2 H.
  unfold extract_final, clean_ocr, match_known_name_from_text, fallback_address.
  rewrite H. reflexivity.
Qed.

Lemma extract_final_case_insensitive_witness :
  lower (s2l "ZOEY DONG, 2821 CARRADALE DR") = lower (s2l "zoey dong, 2821 carradale dr") /\
  extract_final Json.loads (fun _ => Ok (s2l "{}")) (s2l "ZOEY DONG, 2821 CARRADALE DR") =
  extract_final Json.loads (fun _ => Ok (s2l "{}")) (s2l "zoey dong, 2821 carradale dr").
Proof.
  split; [vm_compute; reflexivity|].
  apply extract_final_case_insensitive. vm_compute; reflexivity.
Defined.

(** ** The model's name against the whitelist *)

Lemma match_known_lower : forall x y, lower x = lower y ->
  match_known_name_from_text x = match_known_name_from_text y.
Proof. intros x y H. unfold match_known_name_from_text. rewrite H. reflexivity. Qed.

Lemma match_known_self : forall k,
  In k (map s2l ["Zoey Dong"; "Syta Saephan"; "Tashayanna Mixson"]%string) ->
  match_known_name_from_text k = k.
Proof.
  intros k H. cbn [map In] in H. destruct H as [<-|[<-|[<-|[]]]]; vm_compute; reflexivity.
Qed.

Lemma match_known_ky_dong : match_known_name_from_text (s2l "Ky Dong") = [].
Proof. vm_compute. reflexivity. Qed.

(** X9: a model name equal, up to letter case and surrounding whitespace,
    to "Zoey Dong", "Syta Saephan" or "Tashayanna Mixson" is kept as that
    whitelist name.  A model name "Ky Dong" is not: its first word has two
    letters, below the resolver's three-letter minimum, so it forms no
    candidate pair, and the record's name comes from the raw OCR text. *)
Theorem extract_final_model_name_known : forall jl co ocr resp n r,
  co (clean_ocr ocr) = Ok resp ->
  field_str (extract_json jl resp) (s2l "recipient_name") = Some n ->
  extract_final jl co ocr = Ok r ->
  (forall known, In known (map s2l ["Zoey Dong"; "Syta Saephan"; "Tashayanna Mixson"]%string) ->
     lower (strip n) = lower known -> recipient_name r = known) /\
  (lower (strip n) = lower (s2l "Ky Dong") ->
     recipient_name r = match_known_name_from_text ocr).
Proof.
  intros jl co ocr resp n r Hco Hn H. unfold extract_final in H.
  rewrite Hco in H. cbv beta iota zeta delta [bind] in H.
  rewrite get_stripped_field, Hn in H. cbv beta iota in H.
  destruct (get_stripped _ _) as [ra|e]; cbv beta iota in H; [|discriminate].
  injection H as <-. cbn [recipient_name]. split.
  - intros known Hk Hl.
    rewrite (match_known_lower _ _ Hl), (match_known_self _ Hk).
    assert (Hkn : known <> []).
    { intros ->. cbn [map In] in Hk. destruct Hk as [Hk|[Hk|[Hk|[]]]]; discriminate. }
    destruct (strip n) as [|c t].
    + exfalso. apply Hkn. symmetry in Hl. unfold lower in Hl. apply map_eq_nil in Hl. exact Hl.
    + destruct known as [|d u]; [congruence|]. reflexivity.
  - intros Hl. rewrite (match_known_lower _ _ Hl), match_known_ky_dong.
    destruct (nonempty (strip n)); reflexivity.
Qed.

Lemma extract_final_model_name_known_witness :
  let r := {| recipient_name := s2l "Zoey Dong"; recipient_address := [] |} in
  (forall known, In known (map s2l ["Zoey Dong"; "Syta Saephan"; "Tashayanna Mixson"]%string) ->
     lower (strip (s2l " ZOEY DONG ")) = lower known -> recipient_name r = known) /\
  (lower (strip (s2l " ZOEY DONG ")) = lower (s2l "Ky Dong") ->
     recipient_name r = match_known_name_from_text []).
Proof.
  apply (extract_final_model_name_known Json.loads (fun _ => Ok resp_upper_name) []
           resp_upper_name (s2l " ZOEY DONG ")); vm_compute; reflexivity.
Defined.

(** ** Similarity of texts with no common character *)

Lemma positions_absent : forall b c, ~ In c b -> Difflib.positions b c = [].
Proof.
  intros b c H. unfold Difflib.positions.
  destruct (filter _ _) as [|j js] eqn:E; [reflexivity|exfalso].
  assert (Hj : In j (filter (fun j => Ascii.eqb (Difflib.at_ b j) c) (seq 0 (length b))))
    by (rewrite E; left; reflexivity).
  apply filter_In in Hj. destruct Hj as [Hj Heq]. apply in_seq in Hj.
  apply Ascii.eqb_eq in Heq. apply H. rewrite <- Heq. unfold Difflib.at_. apply nth_In. lia.
Qed.

Lemma b2j_absent : forall b c, ~ In c b -> Difflib.b2j b c = [].
Proof.
  intros b c H. unfold Difflib.b2j. destruct (Difflib.popular b c); auto using positions_absent.
Qed.

Lemma outer_absent : forall a b blo bhi idxs j2len bs,
  (forall i, In i idxs -> Difflib.b2j b (Difflib.at_ a i) = []) ->
  Difflib.outer a b blo bhi idxs j2len bs = bs.
Proof.
  intros a b blo bhi; induction idxs as [|i idxs IH]; intros j2len bs H; [reflexivity|].
  cbn [Difflib.outer]. rewrite (H i (or_introl eq_refl)). cbn [Difflib.inner].
  apply IH. intros i' Hi'. apply H. right; exact Hi'.
Qed.

Lemma find_longest_match_disjoint : forall a b, (forall c, In c a -> ~ In c b) ->
  Difflib.find_longest_match a b 0 (length a) 0 (length b) = (0, 0, 0).
Proof.
  intros a b H. unfold Difflib.find_longest_match.
  rewrite outer_absent.
  2: { intros i Hi. apply in_seq in Hi. apply b2j_absent. apply H.
       unfold Difflib.at_. apply nth_In. lia. }
  destruct a as [|x a]; [reflexivity|].
  cbn [length Difflib.extend_left Nat.ltb Nat.leb andb].
  destruct b as [|y b]; [reflexivity|].
  cbn [length Difflib.extend_right Nat.add Nat.ltb Nat.leb andb Difflib.at_ nth].
  destruct (Ascii.eqb x y) eqn:E; [|reflexivity].
  exfalso. apply Ascii.eqb_eq in E. subst y. apply (H x); left; reflexivity.
Qed.

(** X10: two texts with no character in common (after lower-casing), not
    both empty, have similarity 0. *)
Theorem similarity_disjoint_zero : forall a b,
  (forall c, In c (lower a) -> ~ In c (lower b)) -> a <> [] \/ b <> [] ->
  (similarity a b == 0)%Q.
Proof.
  intros a b H Hne. unfold similarity, Difflib.ratio.
  cbn [Difflib.matches]. rewrite find_longest_match_disjoint by exact H. cbn [Nat.eqb].
  destruct (Nat.eqb_spec (length (lower a) + length (lower b)) 0) as [E|E].
  - exfalso. unfold lower in E. rewrite !length_map in E.
    destruct a, b; simpl in E; try lia; destruct Hne; congruence.
  - reflexivity.
Qed.

Lemma similarity_disjoint_zero_witness :
  (forall c, In c (lower (s2l "abc")) -> ~ In c (lower (s2l "XYZ"))) /\
  (s2l "abc" <> [] \/ s2l "XYZ" <> []) /\ (similarity (s2l "abc") (s2l "XYZ") == 0)%Q.
Proof.
  assert (H : forall c, In c (lower (s2l "abc")) -> ~ In c (lower (s2l "XYZ"))).
  { intros c Hc Hc'. vm_compute in Hc, Hc'.
    destruct Hc as [<-|[<-|[<-|[]]]]; destruct Hc' as [Hc'|[Hc'|[Hc'|[]]]]; discriminate. }
  assert (Hne : s2l "abc" <> [] \/ s2l "XYZ" <> []) by (left; discriminate).
  split; [exact H|]. split; [exact Hne|]. exact (similarity_disjoint_zero _ _ H Hne).
Defined.

(** X11: cleaning invents no character: every character of the cleaned
    text is a character of the lower-cased input or the space that
    replaces a whitespace run. *)
Theorem clean_ocr_chars : forall text,
  Forall (fun c => In c (lower text) \/ c = " "%char) (clean_ocr text).
Proof.
  intros text. unfold clean_ocr, sub. apply Forall_strip.
  assert (Hl : Forall (fun c => In c (lower text) \/ c = " "%char) (lower text)).
  { apply Forall_forall. intros c Hc. left; exact Hc. }
  repeat (apply sub_go_forall; [|constructor]); [exact Hl|right; reflexivity|constructor].
Qed.
